(** * helper-package: WSServer, WSClient and Pledge

    A shallow embedding of the correlation-id protocol of
    [driver/wsserver.js] and [driver/wsclient.js] and of the deferred value
    of [helper/pledge.js], followed by the properties proved about them.

    The first part holds the definitions, one module per source file; the
    second part holds the lemmas and theorems. *)

From Stdlib Require Import ZArith.
From stdpp Require Import base option list gmap strings.

Set Warnings "-register-all".

(* ================================================================== *)
(** * Part I: definitions *)
(* ================================================================== *)

(** ** JavaScript values and the JSON built-ins the sources call *)
Module JS.

(** Numbers.  The sources never compute with numbers, they only carry them
    in payloads and ids, so a finite number is kept as an integer; the three
    kinds of number that JSON text cannot write are kept apart. *)
Inductive number :=
| Finite (z : Z)
| NegZero
| NaN
| Infinity (negative : bool).

(** Values that travel as payload, id or data.  An object is the list of
    its own properties in insertion order. *)
Inductive value :=
| VUndefined
| VNull
| VBool (b : bool)
| VNum (n : number)
| VStr (s : string)
| VArr (items : list value)
| VObj (props : list (string * value)).

(** What a [throw] or a rejected promise carries. *)
Inductive thrown :=
| SyntaxError
| TypeError
| Error (message : string)
| Value (v : value).

(** Structural induction that reaches the members of arrays and objects. *)
Fixpoint value_ind' (P : value → Prop)
    (Hundef : P VUndefined) (Hnull : P VNull)
    (Hbool : ∀ b, P (VBool b)) (Hnum : ∀ n, P (VNum n))
    (Hstr : ∀ s, P (VStr s))
    (Harr : ∀ items, Forall P items → P (VArr items))
    (Hobj : ∀ props, Forall (λ kv, P kv.2) props → P (VObj props))
    (v : value) {struct v} : P v :=
  let rec := value_ind' P Hundef Hnull Hbool Hnum Hstr Harr Hobj in
  match v with
  | VUndefined => Hundef
  | VNull => Hnull
  | VBool b => Hbool b
  | VNum n => Hnum n
  | VStr s => Hstr s
  | VArr items =>
      Harr items
        ((fix all (l : list value) : Forall P l :=
            match l with
            | [] => Forall_nil_2 P
            | x :: l' => Forall_cons_2 P x l' (rec x) (all l')
            end) items)
  | VObj props =>
      Hobj props
        ((fix all (l : list (string * value)) : Forall (λ kv, P kv.2) l :=
            match l with
            | [] => Forall_nil_2 _
            | kv :: l' => Forall_cons_2 (λ kv, P kv.2) kv l' (rec kv.2) (all l')
            end) props)
  end.

(** [ToBoolean]: the test behind [!x] and [if (x)]. *)
Definition truthy (v : value) : bool :=
  match v with
  | VUndefined | VNull => false
  | VBool b => b
  | VNum (Finite z) => negb (Z.eqb z 0)
  | VNum NegZero | VNum NaN => false
  | VNum (Infinity _) => true
  | VStr s => negb (String.eqb s "")
  | VArr _ | VObj _ => true
  end.

(** [typeof x]. *)
Definition typeof (v : value) : string :=
  match v with
  | VUndefined => "undefined"
  | VNull => "object"
  | VBool _ => "boolean"
  | VNum _ => "number"
  | VStr _ => "string"
  | VArr _ | VObj _ => "object"
  end.

(** The own property [name] of an object; when a JSON text repeats a key,
    [JSON.parse] keeps the last occurrence. *)
Fixpoint own_property (name : string) (props : list (string * value))
    : option value :=
  match props with
  | [] => None
  | (k, x) :: rest =>
      match own_property name rest with
      | Some y => Some y
      | None => if decide (k = name) then Some x else None
      end
  end.

(** [v.name] for the four names the sources read ([method], [payload],
    [id], [data]): none of them is defined by a primitive wrapper, by
    [Array.prototype] or by [Object.prototype], so every value that is not
    an object with that own property yields [undefined]. *)
Definition get (name : string) (v : value) : value :=
  match v with
  | VObj props => default VUndefined (own_property name props)
  | _ => VUndefined
  end.

(** Destructuring [const { ... } = v] first requires [v] to be neither
    [undefined] nor [null]. *)
Definition object_coercible (v : value) : bool :=
  match v with
  | VUndefined | VNull => false
  | _ => true
  end.

(** [x === s] for a string [s]. *)
Definition strict_equal_string (x : value) (s : string) : bool :=
  match x with
  | VStr s' => String.eqb s' s
  | _ => false
  end.

(** [SerializeJSONProperty]: the value that the text written by
    [JSON.stringify] denotes, [None] where [JSON.stringify] yields
    [undefined].  A property whose value is [undefined] is left out of an
    object, an [undefined] array element is written [null], and so are the
    numbers that are not finite. *)
Fixpoint serialize (v : value) : option value :=
  match v with
  | VUndefined => None
  | VNull => Some VNull
  | VBool b => Some (VBool b)
  | VNum (Finite z) => Some (VNum (Finite z))
  | VNum NegZero => Some (VNum (Finite 0))
  | VNum NaN | VNum (Infinity _ ) => Some VNull
  | VStr s => Some (VStr s)
  | VArr items => Some (VArr (map (λ x, default VNull (serialize x)) items))
  | VObj props =>
      Some (VObj (omap (λ kv, pair kv.1 <$> serialize kv.2) props))
  end.

(** A text frame on the wire: either a JSON text, identified with the
    document it denotes, or text that is not JSON. *)
Inductive frame :=
| Text (doc : value)
| Garbage (raw : string).

(** [JSON.stringify(v)]. *)
Definition JSON_stringify (v : value) : option frame := Text <$> serialize v.

(** [JSON.parse(text)]: the document, or a [SyntaxError]. *)
Definition JSON_parse (text : frame) : value + thrown :=
  match text with
  | Text doc => inl doc
  | Garbage _ => inr SyntaxError
  end.

(** The values JSON text can write: what [serialize] returns unchanged. *)
Fixpoint is_json (v : value) : bool :=
  match v with
  | VUndefined => false
  | VNull | VBool _ | VStr _ => true
  | VNum (Finite _) => true
  | VNum _ => false
  | VArr items => forallb is_json items
  | VObj props => forallb (λ kv, is_json kv.2) props
  end.

End JS.

(** ** [driver/wsserver.js]: the dispatcher *)
Module WSServer.
Import JS.

(** A handler [(payload, respond) => ...] seen through the one thing it is
    given: the tree of its calls to [respond] during the invocation, each
    continued on how that call completed, ending in a return or a throw. *)
Inductive run :=
| Return
| Throw (e : thrown)
| Respond (data : value) (next : option thrown → run).

Definition handler := value → run.

(** The instance: [this.methodList = {}] holds the handlers registered
    through [on] as own properties. *)
Record t := { methodList : gmap string handler }.

(** [new WSServer()]. *)
Definition create : t := {| methodList := ∅ |}.

(** [ws.send(data)]: the frames written to the connection.  Every argument
    of [JSON.stringify] in the sources is an object literal, for which it
    returns text; the other case is kept for totality only. *)
Definition send (data : option frame) : list frame :=
  match data with
  | Some text => [text]
  | None => []
  end.

(** Runs a handler against a callback: the frames the callback wrote, and
    the exception the invocation ended with, if any. *)
Fixpoint exec (respond : value → list frame * option thrown) (r : run)
    : list frame * option thrown :=
  match r with
  | Return => ([], None)
  | Throw e => ([], Some e)
  | Respond data next =>
      let '(out, completion) := respond data in
      let '(out', result) := exec respond (next completion) in
      (out ++ out', result)
  end.

(** The members of [Object.prototype].  The table is an object literal, so
    [this.methodList[method]] finds them under their names when no handler
    of that name was registered. *)
Inductive inherited :=
| constructor
| __defineGetter__
| __defineSetter__
| hasOwnProperty
| __lookupGetter__
| __lookupSetter__
| isPrototypeOf
| propertyIsEnumerable
| toString
| valueOf
| __proto__
| toLocaleString.

Definition Object_prototype : gmap string inherited :=
  list_to_map
    [("constructor", constructor);
     ("__defineGetter__", __defineGetter__);
     ("__defineSetter__", __defineSetter__);
     ("hasOwnProperty", hasOwnProperty);
     ("__lookupGetter__", __lookupGetter__);
     ("__lookupSetter__", __lookupSetter__);
     ("isPrototypeOf", isPrototypeOf);
     ("propertyIsEnumerable", propertyIsEnumerable);
     ("toString", toString);
     ("valueOf", valueOf);
     ("__proto__", __proto__);
     ("toLocaleString", toLocaleString)].

(** What [this.methodList[method]] evaluates to when it is not
    [undefined]. *)
Inductive member :=
| Own (h : handler)
| Inherited (m : inherited).

Definition lookup (srv : t) (method : string) : option member :=
  match methodList srv !! method with
  | Some h => Some (Own h)
  | None => Inherited <$> Object_prototype !! method
  end.

(** [ToString] of a value that [JSON.parse] produced throws exactly when it
    reaches an object with an own [toString] property (which is then not
    callable); arrays are joined from their elements. *)
Fixpoint to_string_throws (v : value) : bool :=
  match v with
  | VArr items => existsb to_string_throws items
  | VObj props => bool_decide (is_Some (own_property "toString" props))
  | _ => false
  end.

(** An inherited member invoked as [this.methodList[method](payload,
    respond)].  None of them calls its second argument.  [__proto__] is an
    object, not a function; four members convert the payload to a property
    key, and so do [__defineGetter__] and [__defineSetter__], which then
    install an accessor on the table (a table with accessors is outside
    [t]: the model says nothing about the frames that follow such a call);
    [toLocaleString] calls [this.toString()], that is a handler registered
    as [toString], if any, with no arguments. *)
Definition call_inherited (srv : t) (m : inherited) (payload : value)
    : list frame * option thrown :=
  match m with
  | __proto__ => ([], Some TypeError)
  | constructor | isPrototypeOf | toString | valueOf => ([], None)
  | hasOwnProperty | propertyIsEnumerable | __lookupGetter__
  | __lookupSetter__ | __defineGetter__ | __defineSetter__ =>
      ([], if to_string_throws payload then Some TypeError else None)
  | toLocaleString =>
      match methodList srv !! "toString" with
      | Some h => exec (λ _, ([], Some TypeError)) (h VUndefined)
      | None => ([], None)
      end
  end.

(** The error envelope [{ error: true, message, id }], serialized. *)
Definition error_envelope (message : string) (id : value) : option frame :=
  JSON_stringify
    (VObj [("error", VBool true); ("message", VStr message); ("id", id)]).

(** The callback handed to a handler:
    [(data) => ws.send(JSON.stringify({ id, data }))]. *)
Definition respond (id : value) (data : value) : list frame * option thrown :=
  (send (JSON_stringify (VObj [("id", id); ("data", data)])), None).

(** The guard [!method || typeof method !== 'string'], and the name when
    the guard lets the frame through. *)
Definition method_name (method : value) : option string :=
  if negb (truthy method) || negb (String.eqb (typeof method) "string")
  then None
  else match method with
       | VStr name => Some name
       | _ => None
       end.

(** [handleMessage(ws, message)]: the frames sent to [ws], and the
    exception that leaves the method, if one does. *)
Definition handleMessage (srv : t) (message : frame)
    : list frame * option thrown :=
  match JSON_parse message with
  | inr _ => (send (error_envelope "Malformed JSON" VUndefined), None)
  | inl parsed =>
      if negb (object_coercible parsed) then ([], Some TypeError)
      else
        let method := get "method" parsed in
        let payload := get "payload" parsed in
        let id := get "id" parsed in
        match method_name method with
        | None => (send (error_envelope "Missing or invalid method" id), None)
        | Some name =>
            match lookup srv name with
            | Some m =>
                let '(out, completion) :=
                  match m with
                  | Own h => exec (respond id) (h payload)
                  | Inherited b => call_inherited srv b payload
                  end in
                match completion with
                | Some _ =>
                    (out ++ send (error_envelope "Method handler error" id),
                     None)
                | None => (out, None)
                end
            | None => (send (error_envelope "Method not found" id), None)
            end
        end
  end.

(** [on(method, callback)]: [this.methodList[method] = callback].  For the
    name [__proto__] the assignment reaches the accessor of
    [Object.prototype] and re-parents the table instead of adding a
    property; that table is outside [t]. *)
Definition on (method : string) (callback : handler) (srv : t) : option t :=
  if decide (method = "__proto__") then None
  else Some {| methodList := <[method := callback]> (methodList srv) |}.

End WSServer.

(** ** [driver/wsclient.js]: the connection endpoint *)
Module WSClient.
Import JS.

(** The identity of a function object: a closure the client creates ([send]
    and [stream] create one per call), or a function the caller owns.
    [removeListener] compares listeners by identity. *)
Inductive fn :=
| Closure (n : nat)
| User (n : nat).

#[global] Instance fn_eq_dec : EqDecision fn.
Proof. solve_decision. Defined.

(** The three kinds of function found in [onMessageListeners]: the closure
    [send] registers, the closure [stream] registers, and a function the
    caller passed to [addListener].  A function of the caller is opaque: it
    is called, and it returns or throws. *)
Inductive listener :=
| reply_listener (messageId : string) (promise : nat)
| stream_listener (messageId : string) (callback : nat)
    (throws : value → option thrown)
| external (throws : frame → option thrown).

(** Promises: what [send] resolves with is the reply's data, what [stream]
    resolves with is the function that stops the stream. *)
Inductive result :=
| Data (v : value)
| Stop (listener : fn).

Inductive settled :=
| Pending
| Fulfilled (r : result)
| Rejected (e : thrown).

(** Code suspended in [await this.open()], with what resumes it. *)
Inductive waiter :=
| awaiting_connect
| awaiting_open (promise : nat)
| awaiting_send (method : string) (data : value) (promise : nat)
| awaiting_stream (method : string) (data : value) (callback : nat)
    (throws : value → option thrown) (promise : nat).

(** Calls that leave the client, in the order they are made. *)
Inductive call :=
| listener_called (listener : fn) (event : frame)
| callback_called (listener : fn) (callback : nat) (data : value)
| onConnect_called
| console_error (e : thrown).

(** The instance and the part of its environment that it acts on. *)
Record t := mk {
  (* fields of the instance *)
  reconnect : bool;
  isOpen : bool;
  onMessageListeners : list (fn * listener);
  _isConnecting : bool;
  _shouldReconnect : bool;
  onConnectCallback : option (option thrown);
  (* [this.socket] is the socket created last; [sockets] counts the calls
     of [new WebSocket] *)
  sockets : nat;
  (* [setTimeout(() => this.connect(), 1000)] callbacks not yet run *)
  timers : nat;
  (* ['open'] and ['error'] listeners that [open] added to the socket *)
  opening : list waiter;
  (* ['error'] listeners that [send] added to the socket: the promise to
     reject and the listener to remove *)
  errorHandlers : list (nat * fn);
  (* frames handed to [this.socket.send] *)
  wire : list frame;
  promises : list settled;
  (* [Math.random().toString(36).slice(2)], by number of the draw *)
  random : nat → string;
  draws : nat;
  closures : nat;
  trace : list call
}.

(** Assignments to one field. *)
Definition set_isOpen (v : bool) (c : t) : t :=
  mk (reconnect c) v (onMessageListeners c) (_isConnecting c)
    (_shouldReconnect c) (onConnectCallback c) (sockets c) (timers c)
    (opening c) (errorHandlers c) (wire c) (promises c) (random c)
    (draws c) (closures c) (trace c).
Definition set_onMessageListeners (v : list (fn * listener)) (c : t) : t :=
  mk (reconnect c) (isOpen c) v (_isConnecting c) (_shouldReconnect c)
    (onConnectCallback c) (sockets c) (timers c) (opening c)
    (errorHandlers c) (wire c) (promises c) (random c) (draws c)
    (closures c) (trace c).
Definition set_isConnecting (v : bool) (c : t) : t :=
  mk (reconnect c) (isOpen c) (onMessageListeners c) v (_shouldReconnect c)
    (onConnectCallback c) (sockets c) (timers c) (opening c)
    (errorHandlers c) (wire c) (promises c) (random c) (draws c)
    (closures c) (trace c).
Definition set_shouldReconnect (v : bool) (c : t) : t :=
  mk (reconnect c) (isOpen c) (onMessageListeners c) (_isConnecting c) v
    (onConnectCallback c) (sockets c) (timers c) (opening c)
    (errorHandlers c) (wire c) (promises c) (random c) (draws c)
    (closures c) (trace c).
Definition set_onConnectCallback (v : option (option thrown)) (c : t) : t :=
  mk (reconnect c) (isOpen c) (onMessageListeners c) (_isConnecting c)
    (_shouldReconnect c) v (sockets c) (timers c) (opening c)
    (errorHandlers c) (wire c) (promises c) (random c) (draws c)
    (closures c) (trace c).
Definition set_sockets (v : nat) (c : t) : t :=
  mk (reconnect c) (isOpen c) (onMessageListeners c) (_isConnecting c)
    (_shouldReconnect c) (onConnectCallback c) v (timers c) (opening c)
    (errorHandlers c) (wire c) (promises c) (random c) (draws c)
    (closures c) (trace c).
Definition set_timers (v : nat) (c : t) : t :=
  mk (reconnect c) (isOpen c) (onMessageListeners c) (_isConnecting c)
    (_shouldReconnect c) (onConnectCallback c) (sockets c) v (opening c)
    (errorHandlers c) (wire c) (promises c) (random c) (draws c)
    (closures c) (trace c).
Definition set_opening (v : list waiter) (c : t) : t :=
  mk (reconnect c) (isOpen c) (onMessageListeners c) (_isConnecting c)
    (_shouldReconnect c) (onConnectCallback c) (sockets c) (timers c) v
    (errorHandlers c) (wire c) (promises c) (random c) (draws c)
    (closures c) (trace c).
Definition set_errorHandlers (v : list (nat * fn)) (c : t) : t :=
  mk (reconnect c) (isOpen c) (onMessageListeners c) (_isConnecting c)
    (_shouldReconnect c) (onConnectCallback c) (sockets c) (timers c)
    (opening c) v (wire c) (promises c) (random c) (draws c) (closures c)
    (trace c).
Definition set_wire (v : list frame) (c : t) : t :=
  mk (reconnect c) (isOpen c) (onMessageListeners c) (_isConnecting c)
    (_shouldReconnect c) (onConnectCallback c) (sockets c) (timers c)
    (opening c) (errorHandlers c) v (promises c) (random c) (draws c)
    (closures c) (trace c).
Definition set_promises (v : list settled) (c : t) : t :=
  mk (reconnect c) (isOpen c) (onMessageListeners c) (_isConnecting c)
    (_shouldReconnect c) (onConnectCallback c) (sockets c) (timers c)
    (opening c) (errorHandlers c) (wire c) v (random c) (draws c)
    (closures c) (trace c).
Definition set_draws (v : nat) (c : t) : t :=
  mk (reconnect c) (isOpen c) (onMessageListeners c) (_isConnecting c)
    (_shouldReconnect c) (onConnectCallback c) (sockets c) (timers c)
    (opening c) (errorHandlers c) (wire c) (promises c) (random c) v
    (closures c) (trace c).
Definition set_closures (v : nat) (c : t) : t :=
  mk (reconnect c) (isOpen c) (onMessageListeners c) (_isConnecting c)
    (_shouldReconnect c) (onConnectCallback c) (sockets c) (timers c)
    (opening c) (errorHandlers c) (wire c) (promises c) (random c)
    (draws c) v (trace c).
Definition set_trace (v : list call) (c : t) : t :=
  mk (reconnect c) (isOpen c) (onMessageListeners c) (_isConnecting c)
    (_shouldReconnect c) (onConnectCallback c) (sockets c) (timers c)
    (opening c) (errorHandlers c) (wire c) (promises c) (random c)
    (draws c) (closures c) v.

Definition record (x : call) (c : t) : t := set_trace (trace c ++ [x]) c.

(** Settling is first-wins: [resolve] and [reject] of a settled promise do
    nothing. *)
Definition settle (s : settled) (old : settled) : settled :=
  match old with
  | Pending => s
  | _ => old
  end.

Definition resolve (p : nat) (r : result) (c : t) : t :=
  set_promises (alter (settle (Fulfilled r)) p (promises c)) c.

Definition reject (p : nat) (e : thrown) (c : t) : t :=
  set_promises (alter (settle (Rejected e)) p (promises c)) c.

(** [new Promise(...)]: the next free index names the promise. *)
Definition new_promise (c : t) : nat * t :=
  (length (promises c), set_promises (promises c ++ [Pending]) c).

(** [addListener(listener)]. *)
Definition addListener (l : fn * listener) (c : t) : t :=
  set_onMessageListeners (onMessageListeners c ++ [l]) c.

(** [removeListener(listener)]:
    [this.onMessageListeners.filter(l => l !== listener)], a new array. *)
Definition removeListener (f : fn) (c : t) : t :=
  set_onMessageListeners (filter (λ l, l.1 ≠ f) (onMessageListeners c)) c.

(** [_send(method, data)]. *)
Definition _send (method : string) (data : value) (c : t) : string * t :=
  let messageId := random c (draws c) in
  let text :=
    JSON_stringify
      (VObj [("id", VStr messageId); ("method", VStr method);
             ("payload", data)]) in
  (messageId, set_wire (wire c ++ WSServer.send text) (set_draws (S (draws c)) c)).

(** The code after [await this.open()], run once [open] has resolved. *)
Definition resume (w : waiter) (c : t) : t :=
  match w with
  | awaiting_connect => set_isConnecting false c
  | awaiting_open p => resolve p (Data VUndefined) c
  | awaiting_send method data p =>
      let '(messageId, c) := _send method data c in
      let listener := Closure (closures c) in
      let c := set_closures (S (closures c)) c in
      let c := addListener (listener, reply_listener messageId p) c in
      set_errorHandlers (errorHandlers c ++ [(p, listener)]) c
  | awaiting_stream method data callback throws p =>
      let '(messageId, c) := _send method data c in
      let listener := Closure (closures c) in
      let c := set_closures (S (closures c)) c in
      let c := addListener (listener, stream_listener messageId callback throws) c in
      resolve p (Stop listener) c
  end.

(** The same code when [open] has rejected: [connect] still runs its
    [finally], the other callers reject. *)
Definition abandon (e : thrown) (w : waiter) (c : t) : t :=
  match w with
  | awaiting_connect => set_isConnecting false c
  | awaiting_open p
  | awaiting_send _ _ p
  | awaiting_stream _ _ _ _ p => reject p e c
  end.

(** [await this.open()]: the caller goes on at once when [isOpen], and is
    otherwise parked on the socket's ['open'] and ['error'] events. *)
Definition open (w : waiter) (c : t) : t :=
  if isOpen c then resume w c
  else set_opening (opening c ++ [w]) c.

(** [connect()]. *)
Definition connect (c : t) : t :=
  if _isConnecting c then c
  else
    let c := set_isConnecting true c in
    let c := set_shouldReconnect (reconnect c) c in
    (* the old socket loses its handlers; [new WebSocket(this.url)] *)
    let c := set_sockets (S (sockets c)) c in
    let c := set_opening [] (set_errorHandlers [] c) in
    let c := set_isOpen false c in
    open awaiting_connect c.

(** [new WSClient({ url, reconnect })]. *)
Definition create (reconnect : bool) (random : nat → string) : t :=
  connect
    {| reconnect := reconnect; isOpen := false; onMessageListeners := [];
       _isConnecting := false; _shouldReconnect := true;
       onConnectCallback := None; sockets := 0; timers := 0; opening := [];
       errorHandlers := []; wire := []; promises := []; random := random;
       draws := 0; closures := 0; trace := [] |}.

(** [open()] called from outside: the promise it returns. *)
Definition open_promise (c : t) : nat * t :=
  let '(p, c) := new_promise c in (p, open (awaiting_open p) c).

(** [send(method, data)]: the promise it returns. *)
Definition send (method : string) (data : value) (c : t) : nat * t :=
  let '(p, c) := new_promise c in (p, open (awaiting_send method data p) c).

(** [stream(method, data, callback)]: the promise of the stop function. *)
Definition stream (method : string) (data : value) (callback : nat)
    (throws : value → option thrown) (c : t) : nat * t :=
  let '(p, c) := new_promise c in
  (p, open (awaiting_stream method data callback throws p) c).

(** [onConnect(callback)]. *)
Definition onConnect (throws : option thrown) (c : t) : t :=
  set_onConnectCallback (Some throws) c.

(** [close()].  [this.socket.close()] changes no field: the socket answers
    with its events, which the environment delivers. *)
Definition close (c : t) : t := set_shouldReconnect false c.

(** The body of a listener, called as [listener(event)]. *)
Definition invoke (l : fn * listener) (event : frame) (c : t)
    : t * option thrown :=
  let c := record (listener_called l.1 event) c in
  match l.2 with
  | reply_listener messageId p =>
      match JSON_parse event with
      | inr _ => (c, None)
      | inl parsed =>
          if negb (object_coercible parsed) then (c, Some TypeError)
          else
            let responseData := get "data" parsed in
            let responseId := get "id" parsed in
            if strict_equal_string responseId messageId
            then (removeListener l.1 (resolve p (Data responseData) c), None)
            else (c, None)
      end
  | stream_listener messageId callback throws =>
      match JSON_parse event with
      | inr _ => (c, None)
      | inl parsed =>
          if negb (object_coercible parsed) then (c, Some TypeError)
          else
            let responseData := get "data" parsed in
            let responseId := get "id" parsed in
            if strict_equal_string responseId messageId
            then (record (callback_called l.1 callback responseData) c,
                  throws responseData)
            else (c, None)
      end
  | external throws => (c, throws event)
  end.

(** [array.forEach(f)]: an exception of [f] ends the loop and leaves it. *)
Fixpoint forEach {A} (f : A → t → t * option thrown) (l : list A) (c : t)
    : t * option thrown :=
  match l with
  | [] => (c, None)
  | x :: l' =>
      match f x c with
      | (c', None) => forEach f l' c'
      | (c', Some e) => (c', Some e)
      end
  end.

(** The body of the loop in [onmessage]:
    [try { listener(event) } catch (e) { console.error(...) }]. *)
Definition try_listener (event : frame) (l : fn * listener) (c : t)
    : t * option thrown :=
  match invoke l event c with
  | (c', Some e) => (record (console_error e) c', None)
  | (c', None) => (c', None)
  end.

(** [this.socket.onmessage]: the loop runs over the array that was in
    place when it started. *)
Definition onmessage (event : frame) (c : t) : t * option thrown :=
  forEach (try_listener event) (onMessageListeners c) c.

(** [this.socket.onclose]. *)
Definition onclose (c : t) : t :=
  let c := set_isOpen false c in
  if _shouldReconnect c then set_timers (S (timers c)) c else c.

(** [handleError], the socket's [onerror]. *)
Definition handleError (e : thrown) (c : t) : t :=
  let c := record (console_error e) c in
  let c := set_isOpen false c in
  if _shouldReconnect c then set_timers (S (timers c)) c else c.

(** [onOpen], the ['open'] listener that [open] adds for one caller: when
    [onConnectCallback] throws, the listener ends before it has removed
    itself and before it has resolved the promise. *)
Definition onOpen (w : waiter) (c : t) : t :=
  let c := set_isOpen true c in
  match onConnectCallback c with
  | Some completion =>
      let c := record onConnect_called c in
      match completion with
      | Some _ => set_opening (opening c ++ [w]) c
      | None => resume w c
      end
  | None => resume w c
  end.

(** [errorHandler], the ['error'] listener that [send] adds. *)
Definition errorHandler (e : thrown) (h : nat * fn) (c : t) : t :=
  removeListener h.2 (reject h.1 e c).

(** What the environment does to the client: the events of the current
    socket, a reconnect timer that fires, and the calls of the public
    methods.  [connect] takes the handlers off the socket it replaces, so
    only the socket created last is heard. *)
Inductive event :=
| socket_open
| socket_error (e : thrown)
| socket_close
| socket_message (data : frame)
| timer_fires
| calls_connect
| calls_open
| calls_send (method : string) (data : value)
| calls_stream (method : string) (data : value) (callback : nat)
    (throws : value → option thrown)
| calls_onConnect (throws : option thrown)
| calls_addListener (f : nat) (throws : frame → option thrown)
| calls_removeListener (f : fn)
| calls_close.

(** One turn of the event loop.  On ['error'] the handlers run in the order
    they were attached: [handleError] first, then the listeners of the
    parked callers and of the requests in flight (these touch different
    promises, so their relative order is immaterial). *)
Definition step (c : t) (ev : event) : t :=
  match ev with
  | socket_open => foldl (λ c w, onOpen w c) (set_opening [] c) (opening c)
  | socket_error e =>
      let c := handleError e c in
      let c := foldl (λ c w, abandon e w c) (set_opening [] c) (opening c) in
      foldl (λ c h, errorHandler e h c) c (errorHandlers c)
  | socket_close => onclose c
  | socket_message data => (onmessage data c).1
  | timer_fires =>
      match timers c with
      | 0 => c
      | S n => connect (set_timers n c)
      end
  | calls_connect => connect c
  | calls_open => (open_promise c).2
  | calls_send method data => (send method data c).2
  | calls_stream method data callback throws =>
      (stream method data callback throws c).2
  | calls_onConnect throws => onConnect throws c
  | calls_addListener f throws => addListener (User f, external throws) c
  | calls_removeListener f => removeListener f c
  | calls_close => close c
  end.

Definition run (c : t) (evs : list event) : t := foldl step c evs.

End WSClient.

(** ** [helper/pledge.js]: the deferred value *)
Module Pledge.
Import JS.

(** The state of a promise whose values are of type [A]. *)
Inductive settled (A : Type) :=
| Pending
| Fulfilled (v : A)
| Rejected (e : thrown).
Arguments Pending {A}.
Arguments Fulfilled {A} v.
Arguments Rejected {A} e.

(** A promise settles once: the resolving functions of a settled promise do
    nothing. *)
Definition settle {A} (s old : settled A) : settled A :=
  match old with
  | Pending => s
  | _ => old
  end.

(** The instance: [this.promise], with [this._resolve] and [this._reject]
    its resolving functions. *)
Record t := { promise : settled value }.

(** [new Pledge()]. *)
Definition create : t := {| promise := Pending |}.

(** [resolve(data)]. *)
Definition resolve (data : value) (p : t) : t :=
  {| promise := settle (Fulfilled data) (promise p) |}.

(** [reject(data)]. *)
Definition reject (data : thrown) (p : t) : t :=
  {| promise := settle (Rejected data) (promise p) |}.

(** [get()]: a promise that follows [this.promise]. *)
Definition get (p : t) : settled value := promise p.

(** *** [timeout(time)] *)

(** The delay that [setTimeout(callback, time)] gives the callback, in
    milliseconds, for a number [time] (Node.js, [lib/internal/timers.js]):
    [time] itself when it lies between 1 and [2^31 - 1], and 1 for every
    other number, the ones that are too large, not positive or not finite
    among them. *)
Definition TIMEOUT_MAX : Z := 2 ^ 31 - 1.

Definition delay (time : number) : Z :=
  match time with
  | Finite z => if (1 <=? z)%Z && (z <=? TIMEOUT_MAX)%Z then z else 1%Z
  | _ => 1%Z
  end.

(** The three promises of
    [Promise.race([this.promise, new Promise((_, reject) => setTimeout(...))])]:
    the pledge's, the timer's, and the one returned, with the delay of the
    timer.  The returned promise follows whichever of the other two settles
    first; a pledge that is settled already is followed before anything
    else happens. *)
Record racing := {
  pledge : t;
  timer : settled value;
  raced : settled value;
  due : Z
}.

Definition timeout (time : number) (p : t) : racing :=
  {| pledge := p; timer := Pending; raced := settle (promise p) Pending;
     due := delay time |}.

(** What happens after the call, in the order it happens: the pledge is
    resolved or rejected by its owner, or the callback of the timer
    runs. *)
Inductive event :=
| resolves (data : value)
| rejects (reason : thrown)
| elapses.

Definition step (s : racing) (ev : event) : racing :=
  match ev with
  | resolves data =>
      let p := resolve data (pledge s) in
      {| pledge := p; timer := timer s;
         raced := settle (promise p) (raced s); due := due s |}
  | rejects reason =>
      let p := reject reason (pledge s) in
      {| pledge := p; timer := timer s;
         raced := settle (promise p) (raced s); due := due s |}
  | elapses =>
      let timer' := settle (Rejected (Error "Request Timeout")) (timer s) in
      {| pledge := pledge s; timer := timer';
         raced := settle timer' (raced s); due := due s |}
  end.

Definition run (s : racing) (evs : list event) : racing := foldl step s evs.


(** *** [Pledge.all(pledges)] *)

(** An element of the array: a pledge, named by its place in the store of
    pledges, or another value. *)
Inductive item :=
| a_pledge (i : nat)
| plain (v : value).

(** [item instanceof Pledge ? item.get() : item], as the promise that
    [Promise.all] waits for: [get] is an [async] method that returns
    [this.promise], so its promise follows the pledge's. *)
Definition input (pledges : list t) (it : item) : settled value :=
  match it with
  | a_pledge i => from_option get Pending (pledges !! i)
  | plain v => Fulfilled v
  end.

(** [Promise.all]: the array of values, filled in as the inputs fulfil, and
    the promise returned.  Nothing reacts during the call.  The promises of
    [get] start to follow their pledges, and [Promise.all] hears of its
    inputs, in microtasks, which run when the code that made the call has
    finished: [attached] tells whether they have run. *)
Record joining := {
  pledges : list t;
  items : list item;
  values : list (option value);
  joined : settled (list value);
  attached : bool
}.

(** The returned promise is resolved with the values once none is
    missing. *)
Definition complete (j : joining) : joining :=
  match mapM id (values j) with
  | Some vs =>
      {| pledges := pledges j; items := items j; values := values j;
         joined := settle (Fulfilled vs) (joined j);
         attached := attached j |}
  | None => j
  end.

(** The reaction to the [k]-th input having settled. *)
Definition react (k : nat) (s : settled value) (j : joining) : joining :=
  match s with
  | Pending => j
  | Fulfilled v =>
      complete
        {| pledges := pledges j; items := items j;
           values := <[k := Some v]> (values j); joined := joined j;
           attached := attached j |}
  | Rejected e =>
      {| pledges := pledges j; items := items j; values := values j;
         joined := settle (Rejected e) (joined j);
         attached := attached j |}
  end.

(** The reactions to the inputs numbered from [k] on, in order. *)
Fixpoint react_all (k : nat) (inputs : list (settled value)) (j : joining)
    : joining :=
  match inputs with
  | [] => j
  | s :: rest => react_all (S k) rest (react k s j)
  end.

(** [Pledge.all(pledges)], the call itself: no input has been heard of;
    the returned promise is pending, unless the array is empty. *)
Definition all (store : list t) (its : list item) : joining :=
  complete
    {| pledges := store; items := its;
       values := replicate (length its) None; joined := Pending;
       attached := false |}.

(** What happens after the call, in the order it happens: the owners
    resolve and reject pledges of the store, and, once, the microtasks of
    the call run. *)
Inductive op :=
| resolved (i : nat) (data : value)
| rejected (i : nat) (reason : thrown)
| attaches.

(** The microtasks of the call.  The inputs that are settled by now are
    reacted to in the order of the array: their reactions are queued in
    that order. *)
Definition attach (j : joining) : joining :=
  if attached j then j
  else
    react_all 0 (input (pledges j) <$> items j)
      {| pledges := pledges j; items := items j; values := values j;
         joined := joined j; attached := true |}.

(** The inputs that follow pledge [i], now settled as [s], react. *)
Definition notify (i : nat) (s : settled value) (j : joining) : joining :=
  react_all 0
    ((λ it, match it with
            | a_pledge i' => if decide (i' = i) then s else Pending
            | plain _ => Pending
            end) <$> items j) j.

(** The owner settles pledge [i].  Before the microtasks of the call have
    run nothing follows the pledge yet; afterwards the inputs that follow it
    react at once, so that pledges react in the order they are settled. *)
Definition update (i : nat) (f : t → t) (j : joining) : joining :=
  match pledges j !! i with
  | Some p =>
      match promise p with
      | Pending =>
          let j' :=
            {| pledges := <[i := f p]> (pledges j); items := items j;
               values := values j; joined := joined j;
               attached := attached j |} in
          if attached j then notify i (promise (f p)) j' else j'
      | _ => j
      end
  | None => j
  end.

Definition apply (j : joining) (o : op) : joining :=
  match o with
  | resolved i data => update i (resolve data) j
  | rejected i reason => update i (reject reason) j
  | attaches => attach j
  end.


End Pledge.

(** ** Client and server joined by one connection *)
Module Network.
Import JS.

(** The handler of the test suites: [(payload, respond) => respond(payload)]. *)
Definition echo : WSServer.handler :=
  λ payload,
    WSServer.Respond payload
      (λ completion,
         match completion with
         | Some e => WSServer.Throw e
         | None => WSServer.Return
         end).

(** The server handles one frame of the client and the client hears the
    frames the server wrote, in order. *)
Definition deliver (srv : WSServer.t) (c : WSClient.t) (request : frame)
    : WSClient.t :=
  WSClient.run c
    (WSClient.socket_message <$> (WSServer.handleMessage srv request).1).

(** [client.send(method, data)] against [srv]: the promise returned, and
    the client once the frames this call wrote have been answered. *)
Definition request (srv : WSServer.t) (method : string) (data : value)
    (c : WSClient.t) : nat * WSClient.t :=
  let '(p, c') := WSClient.send method data c in
  (p, foldl (deliver srv) c'
        (drop (length (WSClient.wire c)) (WSClient.wire c'))).

End Network.

(** ** Vocabulary of the statements *)

(** The error envelope of a request without an id, as it stands on the
    wire: [{"error":true,"message":...}]. *)
Definition bare_error (message : string) : JS.frame :=
  JS.Text (JS.VObj [("error", JS.VBool true); ("message", JS.VStr message)]).

(** The reply to a request without an id, as it stands on the wire:
    [{"data":...}], and [{}] when the data is [undefined] as well. *)
Definition bare_reply (data : JS.value) : JS.frame :=
  JS.Text
    (JS.VObj match JS.serialize data with
             | Some d => [("data", d)]
             | None => []
             end).

(** The values that a handler passes to [respond], in order, and the
    exception that it ends with, if any, when every call of [respond]
    returns normally. *)
Fixpoint replied (r : WSServer.run) : list JS.value * option JS.thrown :=
  match r with
  | WSServer.Return => ([], None)
  | WSServer.Throw e => ([], Some e)
  | WSServer.Respond data next =>
      let '(ds, completion) := replied (next None) in (data :: ds, completion)
  end.

(** The error envelope as it stands on the wire: the [id] member is written
    only when the id serializes to something. *)
Definition error_reply (message : string) (id : JS.value) : JS.frame :=
  JS.Text
    (JS.VObj
       ([("error", JS.VBool true); ("message", JS.VStr message)]
        ++ match JS.serialize id with
           | Some d => [("id", d)]
           | None => []
           end)).

(** A frame that carries a truthy [error] member. *)
Definition is_error (f : JS.frame) : bool :=
  match f with
  | JS.Text doc => JS.truthy (JS.get "error" doc)
  | JS.Garbage _ => false
  end.

(** The server of the error cases in the test suite: its handler [fail]
    throws. *)
Definition failing_server : WSServer.t :=
  {| WSServer.methodList :=
       <["fail" := λ _, WSServer.Throw (JS.Error "fail")]> ∅ |}.

(** A frame whose JSON object has an own member of that name. *)
Definition has_member (name : string) (f : JS.frame) : bool :=
  match f with
  | JS.Text (JS.VObj props) =>
      bool_decide (is_Some (JS.own_property name props))
  | _ => false
  end.

(** The calls [listener(event)] of a trace, and the errors it logged. *)
Definition listener_calls (tr : list WSClient.call)
    : list (WSClient.fn * JS.frame) :=
  omap (λ x, match x with
             | WSClient.listener_called f event => Some (f, event)
             | _ => None
             end) tr.

Definition logged_errors (tr : list WSClient.call) : list JS.thrown :=
  omap (λ x, match x with
             | WSClient.console_error e => Some e
             | _ => None
             end) tr.

(** The calls [callback(data)] that one listener made. *)
Definition callback_calls (listener : WSClient.fn) (tr : list WSClient.call)
    : list (nat * JS.value) :=
  omap (λ x, match x with
             | WSClient.callback_called f callback data =>
                 if decide (f = listener) then Some (callback, data) else None
             | _ => None
             end) tr.

(** What a listener throws when it is called with a frame. *)
Definition raises (l : WSClient.listener) (event : JS.frame)
    : option JS.thrown :=
  match l with
  | WSClient.reply_listener _ _ =>
      match JS.JSON_parse event with
      | inl parsed =>
          if JS.object_coercible parsed then None else Some JS.TypeError
      | inr _ => None
      end
  | WSClient.stream_listener messageId _ throws =>
      match JS.JSON_parse event with
      | inl parsed =>
          if JS.object_coercible parsed then
            if JS.strict_equal_string (JS.get "id" parsed) messageId
            then throws (JS.get "data" parsed)
            else None
          else Some JS.TypeError
      | inr _ => None
      end
  | WSClient.external throws => throws event
  end.

(** The promise that a listener resolves, and the promise that a parked
    caller settles. *)
Definition promise_of (l : WSClient.listener) : option nat :=
  match l with
  | WSClient.reply_listener _ p => Some p
  | _ => None
  end.

Definition waiter_promise (w : WSClient.waiter) : option nat :=
  match w with
  | WSClient.awaiting_connect => None
  | WSClient.awaiting_open p
  | WSClient.awaiting_send _ _ p
  | WSClient.awaiting_stream _ _ _ _ p => Some p
  end.

(** The states a client can be in: those the events lead to from a new
    instance. *)
Inductive reachable : WSClient.t → Prop :=
| reachable_create (reconnect : bool) (random : nat → string) :
    reachable (WSClient.create reconnect random)
| reachable_step (c : WSClient.t) (ev : WSClient.event) :
    reachable c → reachable (WSClient.step c ev).

(** What every reachable state satisfies: the closures in the registry
    have been created, and so have the promises that listeners and parked
    callers hold. *)
Definition well_formed (c : WSClient.t) : Prop :=
  (∀ n l, (WSClient.Closure n, l) ∈ WSClient.onMessageListeners c →
          n < WSClient.closures c)
  ∧ (∀ x p, x ∈ WSClient.onMessageListeners c → promise_of x.2 = Some p →
            p < length (WSClient.promises c))
  ∧ (∀ w p, w ∈ WSClient.opening c → waiter_promise w = Some p →
            p < length (WSClient.promises c)).

(** The listener of a request fires on a frame that parses to an object
    with the id of the request: the promise it resolves and the data. *)
Definition fires (l : WSClient.listener) (event : JS.frame)
    : option (nat * JS.value) :=
  match l, JS.JSON_parse event with
  | WSClient.reply_listener messageId p, inl parsed =>
      if JS.object_coercible parsed
         && JS.strict_equal_string (JS.get "id" parsed) messageId
      then Some (p, JS.get "data" parsed)
      else None
  | _, _ => None
  end.

(** The listener of a stream hands the data of such a frame to its
    callback. *)
Definition hands_over (l : WSClient.listener) (event : JS.frame)
    : option (nat * JS.value) :=
  match l, JS.JSON_parse event with
  | WSClient.stream_listener messageId callback _, inl parsed =>
      if JS.object_coercible parsed
         && JS.strict_equal_string (JS.get "id" parsed) messageId
      then Some (callback, JS.get "data" parsed)
      else None
  | _, _ => None
  end.

Arguments raises : simpl never.
Arguments fires : simpl never.
Arguments hands_over : simpl never.

(** The frames one listener was called with. *)
Definition calls_of (f : WSClient.fn) (tr : list WSClient.call)
    : list JS.frame :=
  omap (λ x, match x with
             | WSClient.listener_called g event =>
                 if decide (g = f) then Some event else None
             | _ => None
             end) tr.

(** A request in flight: its promise is pending, its listener is
    registered, and no other listener shares the identity of the listener
    or holds the promise. *)
Definition in_flight (f : WSClient.fn) (messageId : string) (p : nat)
    (c : WSClient.t) : Prop :=
  WSClient.promises c !! p = Some WSClient.Pending
  ∧ (f, WSClient.reply_listener messageId p) ∈ WSClient.onMessageListeners c
  ∧ ∀ x, x ∈ WSClient.onMessageListeners c →
         x = (f, WSClient.reply_listener messageId p)
         ∨ (x.1 ≠ f ∧ promise_of x.2 ≠ Some p).

(** A request that was answered: its promise is fulfilled with the data and
    no listener of that identity is registered. *)
Definition answered (f : WSClient.fn) (p : nat) (data : JS.value)
    (c : WSClient.t) : Prop :=
  WSClient.promises c !! p
  = Some (WSClient.Fulfilled (WSClient.Data data))
  ∧ ∀ l, (f, l) ∉ WSClient.onMessageListeners c.

(** The closure numbered [k] has been created and is not registered. *)
Definition retired (k : nat) (c : WSClient.t) : Prop :=
  k < WSClient.closures c
  ∧ ∀ l, (WSClient.Closure k, l) ∉ WSClient.onMessageListeners c.

(** A listener that is the request's own, or that neither shares its
    identity nor holds its promise. *)
Definition foreign (f : WSClient.fn) (messageId : string) (p : nat)
    (x : WSClient.fn * WSClient.listener) : Prop :=
  x = (f, WSClient.reply_listener messageId p)
  ∨ (x.1 ≠ f ∧ promise_of x.2 ≠ Some p).

(** From [c] to [c'] the closure numbered [k] stayed retired and was not
    called, nor did it call a callback. *)
Definition undisturbed (k : nat) (c c' : WSClient.t) : Prop :=
  retired k c'
  ∧ calls_of (WSClient.Closure k) (WSClient.trace c')
    = calls_of (WSClient.Closure k) (WSClient.trace c)
  ∧ callback_calls (WSClient.Closure k) (WSClient.trace c')
    = callback_calls (WSClient.Closure k) (WSClient.trace c).

(** A promise that is pending and that no registered listener holds. *)
Definition unclaimed (p : nat) (c : WSClient.t) : Prop :=
  WSClient.promises c !! p = Some WSClient.Pending
  ∧ ∀ x, x ∈ WSClient.onMessageListeners c → promise_of x.2 ≠ Some p.

(** The request envelope [{ id, method, payload }] as it stands on the
    wire. *)
Definition request_text (messageId method : string) (data : JS.value)
    : JS.frame :=
  JS.Text
    (JS.VObj
       ([("id", JS.VStr messageId); ("method", JS.VStr method)]
        ++ match JS.serialize data with
           | Some d => [("payload", d)]
           | None => []
           end)).

(** Inputs of the examples: a source of ids, and a client whose socket has
    opened. *)
Definition sample_random (n : nat) : string :=
  match n with
  | 0 => "aaa"
  | 1 => "bbb"
  | _ => "ccc"
  end.

Definition open_client : WSClient.t :=
  WSClient.run (WSClient.create false sample_random) [WSClient.socket_open].

(** A subscription: its listener is the registered one of that identity. *)
Definition subscribed (f : WSClient.fn) (messageId : string) (callback : nat)
    (throws : JS.value → option JS.thrown) (c : WSClient.t) : Prop :=
  ∃ others,
    WSClient.onMessageListeners c
    = others ++ [(f, WSClient.stream_listener messageId callback throws)]
    ∧ Forall (λ x, x.1 ≠ f) others.

(** A call that mentions a closure mentions one of the first [n]. *)
Definition made_by_first (n : nat) (x : WSClient.call) : Prop :=
  match x with
  | WSClient.listener_called (WSClient.Closure m) _
  | WSClient.callback_called (WSClient.Closure m) _ _ => m < n
  | _ => True
  end.

(** Only closures that were created appear in the trace. *)
Definition traced (c : WSClient.t) : Prop :=
  Forall (made_by_first (WSClient.closures c)) (WSClient.trace c).

(** What the peer reads for a member written with value [v]: the value
    that the JSON text denotes, or [undefined] when the member is left
    out. *)
Definition wire_value (v : JS.value) : JS.value :=
  default JS.VUndefined (JS.serialize v).

(** A server with the [echo] handler of the test suites. *)
Definition echo_server : WSServer.t :=
  {| WSServer.methodList := <["echo" := Network.echo]> ∅ |}.

(** From [c] to [c'] the reconnect flag, the pending timers and the
    sockets are the same. *)
Definition settled_connection (c c' : WSClient.t) : Prop :=
  WSClient._shouldReconnect c' = WSClient._shouldReconnect c
  ∧ WSClient.timers c' = WSClient.timers c
  ∧ WSClient.sockets c' = WSClient.sockets c.



(** The inputs as [Promise.all] has seen them, after the reactions to the
    inputs numbered from [k] on. *)
Fixpoint seen (k : nat) (inputs view : list (Pledge.settled JS.value))
    : list (Pledge.settled JS.value) :=
  match inputs with
  | [] => view
  | s :: rest =>
      seen (S k) rest
        match s with
        | Pledge.Pending => view
        | _ => <[k := s]> view
        end
  end.




(** From [c] to [c'] no promise was dropped and no settled promise has
    changed. *)
Definition kept (c c' : WSClient.t) : Prop :=
  length (WSClient.promises c) ≤ length (WSClient.promises c')
  ∧ ∀ p s, WSClient.promises c !! p = Some s → s ≠ WSClient.Pending →
           WSClient.promises c' !! p = Some s.

(** The promises that the ['error'] listeners of [send] reject have been
    created. *)
Definition handlers_bounded (c : WSClient.t) : Prop :=
  ∀ h, h ∈ WSClient.errorHandlers c → h.1 < length (WSClient.promises c).

(** A listener that is registered last and is the only one of its
    identity. *)
Definition heard (x : WSClient.fn * WSClient.listener) (c : WSClient.t)
    : Prop :=
  ∃ others,
    WSClient.onMessageListeners c = others ++ [x]
    ∧ Forall (λ y, y.1 ≠ x.1) others.

(** The outcome that the first [resolve] or [reject] among the events asks
    for. *)
Fixpoint first_call (evs : list Pledge.event) : Pledge.settled JS.value :=
  match evs with
  | [] => Pledge.Pending
  | Pledge.resolves data :: _ => Pledge.Fulfilled data
  | Pledge.rejects reason :: _ => Pledge.Rejected reason
  | Pledge.elapses :: rest => first_call rest
  end.

(** A pending promise that nothing holds: no message listener, no caller
    parked in [open] and no ['error'] listener of [send]. *)
Definition orphaned (p : nat) (c : WSClient.t) : Prop :=
  unclaimed p c
  ∧ (∀ w, w ∈ WSClient.opening c → waiter_promise w ≠ Some p)
  ∧ (∀ h, h ∈ WSClient.errorHandlers c → h.1 ≠ p).

(** The reply [{ id, data }] to a request with the id [id], as it stands on
    the wire. *)
Definition data_reply (id : string) (data : JS.value) : JS.frame :=
  JS.Text
    (JS.VObj
       (("id", JS.VStr id)
        :: match JS.serialize data with
           | Some d => [("data", d)]
           | None => []
           end)).

(* ================================================================== *)
(** * Part II: properties *)
(* ================================================================== *)

Import JS.

(** ** JSON *)

Lemma serialize_json (v : value) :
  is_json v = true → serialize v = Some v.
Proof.
  induction v as [| | b | n | s | items IH | props IH] using value_ind';
    simpl; try done.
  - by destruct n.
  - intros Hall. do 2 f_equal.
    induction IH as [|x l Hx _ IHl]; simpl in *; [done|].
    apply andb_prop in Hall as [Hx' Hl].
    by rewrite (Hx Hx'), (IHl Hl).
  - intros Hall. do 2 f_equal.
    induction IH as [|[k x] l Hx _ IHl]; simpl in *; [done|].
    apply andb_prop in Hall as [Hx' Hl].
    rewrite (Hx Hx'). simpl. f_equal. exact (IHl Hl).
Qed.

Lemma serialize_is_json (v d : value) :
  serialize v = Some d → is_json d = true.
Proof.
  revert d.
  induction v as [| | b | n | s | items IH | props IH] using value_ind';
    simpl; intros d Hd; simplify_eq; try done.
  - by destruct n; simplify_eq.
  - simpl. induction IH as [|x l Hx _ IHl]; [done|].
    cbn. rewrite IHl, andb_true_r.
    destruct (serialize x) as [d|] eqn:E; simpl; [by apply Hx|done].
  - simpl. induction IH as [|[k x] l Hx _ IHl]; [done|].
    cbn. destruct (serialize x) as [d|] eqn:E; cbn; [|exact IHl].
    rewrite (Hx d E). exact IHl.
Qed.

(** [JSON.stringify] of an object literal is always text. *)
Lemma JSON_stringify_object (props : list (string * value)) :
  JSON_stringify (VObj props)
  = Some (Text (VObj (omap (λ kv, pair kv.1 <$> serialize kv.2) props))).
Proof. reflexivity. Qed.

(** A property whose value is [undefined] is not written. *)
Lemma own_property_app (name : string) (l1 l2 : list (string * value)) :
  own_property name (l1 ++ l2)
  = match own_property name l2 with
    | Some y => Some y
    | None => own_property name l1
    end.
Proof.
  induction l1 as [|[k x] l1 IH]; simpl.
  - by destruct (own_property name l2).
  - rewrite IH. by destruct (own_property name l2).
Qed.

(** ** The dispatcher *)

Section Dispatcher.
Import WSServer.

Lemma send_error_envelope (message : string) (id : value) :
  send (error_envelope message id) = [error_reply message id].
Proof.
  unfold error_envelope, error_reply. rewrite JSON_stringify_object. simpl.
  by destruct (serialize id).
Qed.

(** The guard lets through exactly the non-empty strings. *)
Lemma method_name_Some (method : value) (name : string) :
  method_name method = Some name ↔ method = VStr name ∧ name ≠ "".
Proof.
  unfold method_name. destruct method as [| | b | n | s | items | props];
    simpl; try (split; [done | by intros [? _]]).
  - destruct b; split; try done; by intros [? _].
  - destruct n as [z| | |?]; simpl; try (split; [done | by intros [? _]]).
    destruct (Z.eqb z 0); split; try done; by intros [? _].
  - destruct (String.eqb_spec s "") as [->|Hne]; simpl.
    + split; [done|]. by intros [[= <-] ?].
    + split; [by intros [= <-] | by intros [[= <-] _]].
Qed.

Lemma method_name_None (method : value) :
  method_name method = None ↔ ∀ name, method = VStr name → name = "".
Proof.
  split.
  - intros Hnone name ->. destruct (decide (name = "")) as [|Hne]; [done|].
    assert (method_name (VStr name) = Some name) as H
      by by apply method_name_Some.
    congruence.
  - intros Hall. destruct (method_name method) as [name|] eqn:E; [|done].
    apply method_name_Some in E as [-> Hne]. by destruct Hne; apply Hall.
Qed.

(** A value with a property is an object, hence neither [null] nor
    [undefined]. *)
Lemma get_coercible (name : string) (v x : value) :
  get name v = x → x ≠ VUndefined → object_coercible v = true.
Proof. destruct v; simpl; congruence. Qed.

(** The frames a handler writes through [respond] are success envelopes. *)
Lemma respond_not_error (id data : value) :
  Forall (λ f, is_error f = false) (respond id data).1.
Proof.
  unfold respond. rewrite JSON_stringify_object. simpl.
  destruct (serialize id), (serialize data); simpl; by repeat constructor.
Qed.

Lemma exec_respond_not_error (id : value) (r : run) :
  Forall (λ f, is_error f = false) (exec (respond id) r).1.
Proof.
  induction r as [|e|data next IH]; simpl; try done.
  destruct (exec (respond id) (next None)) as [out' result] eqn:E.
  simpl. specialize (IH None). rewrite E in IH.
  apply Forall_cons. split; [|done].
  pose proof (respond_not_error id data) as H.
  unfold respond in H. rewrite JSON_stringify_object in H. simpl in H.
  by apply Forall_cons in H as [H _].
Qed.

End Dispatcher.
Section DispatcherClaims.
Import WSServer.

(** A frame that passes the guard is dispatched on the table. *)
Lemma handleMessage_named (srv : t) (message : frame) (parsed : value)
    (name : string) :
  JSON_parse message = inl parsed →
  get "method" parsed = VStr name → name ≠ "" →
  handleMessage srv message
  = match lookup srv name with
    | Some m =>
        let '(out, completion) :=
          match m with
          | Own h =>
              exec (respond (get "id" parsed)) (h (get "payload" parsed))
          | Inherited b => call_inherited srv b (get "payload" parsed)
          end in
        match completion with
        | Some _ =>
            (out ++ send (error_envelope "Method handler error"
                            (get "id" parsed)), None)
        | None => (out, None)
        end
    | None =>
        (send (error_envelope "Method not found" (get "id" parsed)), None)
    end.
Proof.
  intros Hp Hm Hne. unfold handleMessage. rewrite Hp.
  rewrite (get_coercible "method" parsed (VStr name) Hm) by done.
  cbv beta iota zeta delta [negb]. rewrite Hm.
  by rewrite (proj2 (method_name_Some (VStr name) name)).
Qed.

Lemma handleMessage_not_found (srv : t) (message : frame) (parsed : value)
    (name : string) :
  JSON_parse message = inl parsed →
  get "method" parsed = VStr name → name ≠ "" →
  methodList srv !! name = None →
  Object_prototype !! name = None →
  handleMessage srv message
  = ([error_reply "Method not found" (get "id" parsed)], None).
Proof.
  intros Hp Hm Hne Hown Hproto.
  rewrite (handleMessage_named srv message parsed name Hp Hm Hne).
  unfold lookup. rewrite Hown, Hproto.
  change (Inherited <$> None) with (@None member). cbv beta iota.
  by rewrite send_error_envelope.
Qed.

(** C1, as amended.  [handleMessage] answers each failing frame with exactly
    one error envelope, chosen by the first case that applies: text that is
    not JSON gets "Malformed JSON" without an id; a parsed value other than
    [null] whose [method] is absent, empty or not a string gets "Missing or
    invalid method" with the parsed id; a non-empty method name that is
    neither registered nor a member of [Object.prototype] gets "Method not
    found" with the id; and when the registered handler throws, the frames
    it had written, none of them an error envelope, are followed by "Method
    handler error" with the id.  No exception leaves the method in these
    cases. *)
Theorem handleMessage_error_envelopes (srv : t) (message : frame) :
  (∀ e, JSON_parse message = inr e →
     handleMessage srv message
     = ([error_reply "Malformed JSON" VUndefined], None))
  ∧ (∀ parsed,
       JSON_parse message = inl parsed →
       object_coercible parsed = true →
       (∀ name, get "method" parsed = VStr name → name = "") →
       handleMessage srv message
       = ([error_reply "Missing or invalid method" (get "id" parsed)], None))
  ∧ (∀ parsed name,
       JSON_parse message = inl parsed →
       get "method" parsed = VStr name → name ≠ "" →
       methodList srv !! name = None →
       Object_prototype !! name = None →
       handleMessage srv message
       = ([error_reply "Method not found" (get "id" parsed)], None))
  ∧ (∀ parsed name (h : handler) out e,
       JSON_parse message = inl parsed →
       get "method" parsed = VStr name → name ≠ "" →
       methodList srv !! name = Some h →
       exec (respond (get "id" parsed)) (h (get "payload" parsed))
       = (out, Some e) →
       handleMessage srv message
       = (out ++ [error_reply "Method handler error" (get "id" parsed)],
          None)
       ∧ Forall (λ f, is_error f = false) out).
Proof.
  split; [|split; [|split]].
  - intros e He. unfold handleMessage. rewrite He.
    by rewrite send_error_envelope.
  - intros parsed Hp Hc Hm. unfold handleMessage. rewrite Hp, Hc.
    cbv beta iota zeta delta [negb].
    apply method_name_None in Hm. rewrite Hm.
    by rewrite send_error_envelope.
  - intros parsed name. apply handleMessage_not_found.
  - intros parsed name h out e Hp Hm Hne Hown Hexec.
    rewrite (handleMessage_named srv message parsed name Hp Hm Hne).
    unfold lookup. rewrite Hown. cbv beta iota. rewrite Hexec.
    rewrite send_error_envelope. split; [done|].
    pose proof (exec_respond_not_error (get "id" parsed)
                  (h (get "payload" parsed))) as Hout.
    by rewrite Hexec in Hout.
Qed.

Lemma handleMessage_error_envelopes_witness :
  handleMessage failing_server (Garbage "not json")
  = ([error_reply "Malformed JSON" VUndefined], None)
  ∧ handleMessage failing_server
      (Text (VObj [("payload", VStr "hi"); ("id", VNum (Finite 2))]))
    = ([error_reply "Missing or invalid method" (VNum (Finite 2))], None)
  ∧ handleMessage failing_server
      (Text (VObj [("method", VStr "notfound"); ("payload", VStr "hi");
                   ("id", VNum (Finite 3))]))
    = ([error_reply "Method not found" (VNum (Finite 3))], None)
  ∧ handleMessage failing_server
      (Text (VObj [("method", VStr "fail"); ("payload", VStr "hi");
                   ("id", VNum (Finite 4))]))
    = ([error_reply "Method handler error" (VNum (Finite 4))], None).
Proof.
  split; [|split; [|split]].
  - exact (proj1 (handleMessage_error_envelopes failing_server
                    (Garbage "not json")) SyntaxError eq_refl).
  - refine (proj1 (proj2 (handleMessage_error_envelopes failing_server
                            (Text (VObj [("payload", VStr "hi");
                                         ("id", VNum (Finite 2))]))))
              _ eq_refl eq_refl _).
    intros name Hname. discriminate Hname.
  - refine (proj1 (proj2 (proj2 (handleMessage_error_envelopes failing_server
              (Text (VObj [("method", VStr "notfound"); ("payload", VStr "hi");
                           ("id", VNum (Finite 3))])))))
              _ "notfound" eq_refl eq_refl _ _ _).
    + discriminate.
    + vm_compute. reflexivity.
    + vm_compute. reflexivity.
  - refine (proj1 (proj2 (proj2 (proj2 (handleMessage_error_envelopes
              failing_server
              (Text (VObj [("method", VStr "fail"); ("payload", VStr "hi");
                           ("id", VNum (Finite 4))])))))
              _ "fail" (λ _, Throw (Error "fail")) [] (Error "fail")
              eq_refl eq_refl _ _ eq_refl)).
    + discriminate.
    + vm_compute. reflexivity.
Defined.

(** C1 as stated fails on an empty method name: the name is present and is
    a string, the table has no handler for it, and still the frame is
    answered "Missing or invalid method" rather than "Method not found". *)
Lemma handleMessage_empty_method_name :
  let message := Text (VObj [("method", VStr ""); ("id", VStr "7")]) in
  typeof (get "method" (VObj [("method", VStr ""); ("id", VStr "7")]))
  = "string"
  ∧ lookup create "" = None
  ∧ handleMessage create message
    = ([error_reply "Missing or invalid method" (VStr "7")], None)
  ∧ handleMessage create message
    ≠ ([error_reply "Method not found" (VStr "7")], None).
Proof. repeat split. vm_compute. discriminate. Qed.

End DispatcherClaims.

Section WireForm.
Import WSServer.

(** What the client reads out of a frame without an [id] member. *)
Lemma has_member_get (name : string) (doc : value) :
  has_member name (Text doc) = false → get name doc = VUndefined.
Proof.
  destruct doc; simpl; try done.
  case_bool_decide as H; [done|]. intros _.
  destruct (own_property name props); [|done]. by destruct H.
Qed.

Lemma error_reply_no_id (message : string) :
  has_member "id" (error_reply message VUndefined) = false.
Proof. reflexivity. Qed.

Lemma respond_no_id (data : value) :
  Forall (λ f, has_member "id" f = false) (respond VUndefined data).1.
Proof.
  unfold respond. rewrite JSON_stringify_object. simpl.
  destruct (serialize data); by repeat constructor.
Qed.

Lemma exec_respond_no_id (r : run) :
  Forall (λ f, has_member "id" f = false) (exec (respond VUndefined) r).1.
Proof.
  induction r as [|e|data next IH]; simpl; try done.
  destruct (exec (respond VUndefined) (next None)) as [out' result] eqn:E.
  simpl. specialize (IH None). rewrite E in IH.
  apply Forall_cons. split; [|done].
  pose proof (respond_no_id data) as H.
  unfold respond in H. rewrite JSON_stringify_object in H. simpl in H.
  by apply Forall_cons in H as [H _].
Qed.

(** A callback that writes nothing leaves the connection untouched. *)
Lemma exec_silent (respond : value → list frame * option thrown) (r : run) :
  (∀ data, (respond data).1 = []) → (exec respond r).1 = [].
Proof.
  intros Hsilent. induction r as [|e|data next IH]; simpl; try done.
  specialize (Hsilent data). destruct (respond data) as [out completion].
  simpl in Hsilent. subst out.
  specialize (IH completion).
  by destruct (exec respond (next completion)).
Qed.

Lemma call_inherited_silent (srv : t) (m : inherited) (payload : value) :
  (call_inherited srv m payload).1 = [].
Proof.
  destruct m; simpl; try done.
  destruct (methodList srv !! "toString"); [|done].
  by apply exec_silent.
Qed.

(** Without an id, [respond] writes one frame for each call: the object
    with the data alone. *)
Lemma exec_respond_absent (r : run) :
  exec (respond VUndefined) r = (bare_reply <$> (replied r).1, (replied r).2).
Proof.
  induction r as [|e|data next IH]; simpl; try done.
  rewrite (IH None). destruct (replied (next None)) as [ds completion].
  simpl. unfold bare_reply. by destruct (serialize data).
Qed.

Lemma bare_reply_no_id (data : value) :
  has_member "id" (bare_reply data) = false.
Proof. unfold bare_reply. by destruct (serialize data). Qed.

(** C10.  What the server writes for a request without an id.  Text that
    is not JSON is answered with exactly the object
    [{"error":true,"message":"Malformed JSON"}].  For a parsed frame
    without an id, each error is answered with exactly one such object
    with its message, and each call of [respond] by the handler writes
    exactly one frame, the object with the data alone.  None of these
    frames has an [id] member, and the client that parses one reads
    [undefined] for the id, not [null]. *)
Theorem absent_id_is_not_written (srv : t) (message : frame) :
  (∀ e, JSON_parse message = inr e →
     handleMessage srv message = ([bare_error "Malformed JSON"], None))
  ∧ (∀ parsed,
       JSON_parse message = inl parsed →
       get "id" parsed = VUndefined →
       (object_coercible parsed = true →
        (∀ name, get "method" parsed = VStr name → name = "") →
        handleMessage srv message
        = ([bare_error "Missing or invalid method"], None))
       ∧ (∀ name,
            get "method" parsed = VStr name → name ≠ "" →
            methodList srv !! name = None →
            Object_prototype !! name = None →
            handleMessage srv message
            = ([bare_error "Method not found"], None))
       ∧ (∀ name (h : handler),
            get "method" parsed = VStr name → name ≠ "" →
            methodList srv !! name = Some h →
            handleMessage srv message
            = ((bare_reply <$> (replied (h (get "payload" parsed))).1)
               ++ match (replied (h (get "payload" parsed))).2 with
                  | Some _ => [bare_error "Method handler error"]
                  | None => []
                  end,
               None))
       ∧ Forall (λ f, has_member "id" f = false)
           (handleMessage srv message).1)
  ∧ (∀ text, has_member "id" (bare_error text) = false)
  ∧ (∀ data, has_member "id" (bare_reply data) = false)
  ∧ (∀ doc, has_member "id" (Text doc) = false →
       JSON_parse (Text doc) = inl doc
       ∧ get "id" doc = VUndefined ∧ get "id" doc ≠ VNull).
Proof.
  split; [|split; [|split; [done|split; [exact bare_reply_no_id|]]]].
  - intros e He. unfold handleMessage. by rewrite He.
  - intros parsed Hp Hid. split; [|split; [|split]].
    + intros Hc Hm. unfold handleMessage. rewrite Hp, Hc, Hid.
      cbv beta iota zeta delta [negb].
      apply method_name_None in Hm. by rewrite Hm.
    + intros name Hm Hne Hown Hproto.
      rewrite (handleMessage_not_found srv message parsed name) by done.
      by rewrite Hid.
    + intros name h Hm Hne Hown.
      rewrite (handleMessage_named srv message parsed name Hp Hm Hne).
      unfold lookup. rewrite Hown. cbv beta iota.
      rewrite Hid, exec_respond_absent.
      destruct (replied (h (get "payload" parsed))) as [ds [e|]]; simpl.
      * done.
      * by rewrite app_nil_r.
    + unfold handleMessage. rewrite Hp, Hid.
      destruct (object_coercible parsed); simpl negb; cbv iota; [|done].
      cbv zeta.
      destruct (method_name (get "method" parsed)) as [name|].
      2: { rewrite send_error_envelope. simpl. by repeat constructor. }
      destruct (lookup srv name) as [[h|b]|].
      * pose proof (exec_respond_no_id (h (get "payload" parsed))) as Hout.
        destruct (exec (respond VUndefined) (h (get "payload" parsed)))
          as [out [e|]]; simpl in Hout; cbv beta iota; [|exact Hout].
        rewrite send_error_envelope. cbn [fst].
        apply Forall_app. split; [done|]. by repeat constructor.
      * pose proof (call_inherited_silent srv b (get "payload" parsed))
          as Hout.
        destruct (call_inherited srv b (get "payload" parsed))
          as [out [e|]]; simpl in Hout; subst out; cbv beta iota;
          [|by constructor].
        rewrite send_error_envelope. by repeat constructor.
      * rewrite send_error_envelope. by repeat constructor.
  - intros doc Hdoc. split; [done|].
    rewrite (has_member_get "id" doc Hdoc). by split.
Qed.

Lemma absent_id_is_not_written_witness :
  handleMessage echo_server
    (Text (VObj [("method", VStr "echo"); ("payload", VStr "x")]))
  = ([Text (VObj [("data", VStr "x")])], None)
  ∧ handleMessage failing_server
      (Text (VObj [("method", VStr "fail"); ("payload", VStr "x")]))
    = ([Text (VObj [("error", VBool true);
                    ("message", VStr "Method handler error")])], None)
  ∧ handleMessage failing_server
      (Text (VObj [("method", VStr "nothere"); ("payload", VStr "x")]))
    = ([Text (VObj [("error", VBool true);
                    ("message", VStr "Method not found")])], None).
Proof.
  split; [|split].
  - exact (proj1 (proj2 (proj2 (proj1 (proj2
             (absent_id_is_not_written echo_server
                (Text (VObj [("method", VStr "echo");
                             ("payload", VStr "x")]))))
             _ eq_refl eq_refl)))
             "echo" Network.echo eq_refl ltac:(discriminate) eq_refl).
  - exact (proj1 (proj2 (proj2 (proj1 (proj2
             (absent_id_is_not_written failing_server
                (Text (VObj [("method", VStr "fail");
                             ("payload", VStr "x")]))))
             _ eq_refl eq_refl)))
             "fail" (λ _, Throw (Error "fail")) eq_refl ltac:(discriminate)
             eq_refl).
  - exact (proj1 (proj2 (proj1 (proj2
             (absent_id_is_not_written failing_server
                (Text (VObj [("method", VStr "nothere");
                             ("payload", VStr "x")]))))
             _ eq_refl eq_refl))
             "nothere" eq_refl ltac:(discriminate) eq_refl eq_refl).
Defined.

End WireForm.

(** ** The listener registry *)

Section Dispatch.
Import WSClient.

Lemma listener_calls_app (tr1 tr2 : list call) :
  listener_calls (tr1 ++ tr2) = listener_calls tr1 ++ listener_calls tr2.
Proof. apply omap_app. Qed.

Lemma logged_errors_app (tr1 tr2 : list call) :
  logged_errors (tr1 ++ tr2) = logged_errors tr1 ++ logged_errors tr2.
Proof. apply omap_app. Qed.

Lemma callback_calls_app (f : fn) (tr1 tr2 : list call) :
  callback_calls f (tr1 ++ tr2) = callback_calls f tr1 ++ callback_calls f tr2.
Proof. apply omap_app. Qed.

(** One call [listener(event)]: what it adds to the trace and how it
    completes. *)
Lemma invoke_trace (l : fn * listener) (event : frame) (c : t) :
  (invoke l event c).2 = raises l.2 event
  ∧ listener_calls (trace (invoke l event c).1)
    = listener_calls (trace c) ++ [(l.1, event)]
  ∧ logged_errors (trace (invoke l event c).1) = logged_errors (trace c).
Proof.
  destruct l as [f [messageId p|messageId callback throws|throws]];
    unfold invoke, raises; simpl.
  - destruct (JSON_parse event) as [parsed|e]; simpl.
    + destruct (object_coercible parsed); simpl.
      * destruct (strict_equal_string _ _); simpl;
          rewrite listener_calls_app, logged_errors_app; simpl;
          by rewrite !app_nil_r.
      * rewrite listener_calls_app, logged_errors_app; simpl;
          by rewrite !app_nil_r.
    + rewrite listener_calls_app, logged_errors_app; simpl;
        by rewrite !app_nil_r.
  - destruct (JSON_parse event) as [parsed|e]; simpl.
    + destruct (object_coercible parsed); simpl.
      * destruct (strict_equal_string _ _); simpl;
          rewrite ?listener_calls_app, ?logged_errors_app; simpl;
          by rewrite ?app_nil_r.
      * rewrite listener_calls_app, logged_errors_app; simpl;
          by rewrite !app_nil_r.
    + rewrite listener_calls_app, logged_errors_app; simpl;
        by rewrite !app_nil_r.
  - rewrite listener_calls_app, logged_errors_app; simpl;
      by rewrite !app_nil_r.
Qed.

Lemma try_listener_trace (l : fn * listener) (event : frame) (c : t) :
  (try_listener event l c).2 = None
  ∧ listener_calls (trace (try_listener event l c).1)
    = listener_calls (trace c) ++ [(l.1, event)]
  ∧ logged_errors (trace (try_listener event l c).1)
    = logged_errors (trace c) ++ option_list (raises l.2 event).
Proof.
  unfold try_listener.
  destruct (invoke_trace l event c) as (Hr & Hcalls & Herrs).
  destruct (invoke l event c) as [c' [e|]]; simpl in *; rewrite <- Hr; simpl.
  - split; [done|].
    rewrite listener_calls_app, logged_errors_app, Hcalls, Herrs. simpl.
    by rewrite app_nil_r.
  - by rewrite Hcalls, Herrs, app_nil_r.
Qed.

(** The loop calls every listener of the array it was started on. *)
Lemma forEach_try_listener (event : frame) (ls : list (fn * listener)) (c : t) :
  (forEach (try_listener event) ls c).2 = None
  ∧ listener_calls (trace (forEach (try_listener event) ls c).1)
    = listener_calls (trace c) ++ ((λ l, (l.1, event)) <$> ls)
  ∧ logged_errors (trace (forEach (try_listener event) ls c).1)
    = logged_errors (trace c) ++ omap (λ l, raises l.2 event) ls.
Proof.
  revert c. induction ls as [|l ls IH]; intros c; simpl.
  - by rewrite !app_nil_r.
  - destruct (try_listener_trace l event c) as (Hr & Hcalls & Herrs).
    destruct (try_listener event l c) as [c' r]; simpl in *. subst r.
    destruct (IH c') as (IHr & IHcalls & IHerrs).
    split; [done|]. rewrite IHcalls, IHerrs, Hcalls, Herrs.
    rewrite <- !app_assoc. split; [done|]. f_equal.
    by destruct (raises l.2 event).
Qed.

(** C7.  [onmessage] hands the frame to every listener of the registry, in
    order, whatever the listeners before it did: an exception thrown by a
    listener is caught and logged, and none leaves the loop. *)
Theorem onmessage_catches_listener_errors (c : t) (event : frame) :
  (onmessage event c).2 = None
  ∧ listener_calls (trace (onmessage event c).1)
    = listener_calls (trace c)
      ++ ((λ l, (l.1, event)) <$> onMessageListeners c)
  ∧ logged_errors (trace (onmessage event c).1)
    = logged_errors (trace c)
      ++ omap (λ l, raises l.2 event) (onMessageListeners c).
Proof. apply forEach_try_listener. Qed.

End Dispatch.

(** ** Reachable states of the client *)

Section Reachable.
Import WSClient.

(** A state with no more listeners or parked callers, and no fewer
    closures or promises, is well formed when the other is. *)
Lemma well_formed_mono (c c' : t) :
  well_formed c →
  closures c ≤ closures c' →
  length (promises c) ≤ length (promises c') →
  (∀ x, x ∈ onMessageListeners c' → x ∈ onMessageListeners c) →
  (∀ w, w ∈ opening c' → w ∈ opening c) →
  well_formed c'.
Proof.
  intros (Hc & Hp & Hw) Hclo Hlen Hreg Hopen. repeat split.
  - intros n l Hin. apply Hreg, Hc in Hin. lia.
  - intros x p Hin Hx. apply Hreg in Hin. specialize (Hp x p Hin Hx). lia.
  - intros w p Hin Hx. apply Hopen in Hin. specialize (Hw w p Hin Hx). lia.
Qed.

Lemma well_formed_resume (w : waiter) (c : t) :
  well_formed c →
  (∀ p, waiter_promise w = Some p → p < length (promises c)) →
  well_formed (resume w c).
Proof.
  intros Hwf Hbound. pose proof Hwf as (Hc & Hp & Hw).
  destruct w as [|p|method data p|method data callback throws p]; simpl.
  - by apply (well_formed_mono c).
  - apply (well_formed_mono c); simpl; try done. by rewrite length_alter.
  - unfold well_formed. simpl. repeat split.
    + intros n l [Hin|Hin%list_elem_of_singleton]%elem_of_app.
      * apply Hc in Hin. lia.
      * injection Hin as -> _. lia.
    + intros x q [Hin|Hin%list_elem_of_singleton]%elem_of_app Hq.
      * by apply (Hp x).
      * subst x. simpl in Hq. injection Hq as <-. by apply Hbound.
    + done.
  - unfold well_formed. simpl. rewrite length_alter. repeat split.
    + intros n l [Hin|Hin%list_elem_of_singleton]%elem_of_app.
      * apply Hc in Hin. lia.
      * injection Hin as -> _. lia.
    + intros x q [Hin|Hin%list_elem_of_singleton]%elem_of_app Hq.
      * by apply (Hp x).
      * by subst x.
    + done.
Qed.

Lemma well_formed_abandon (e : thrown) (w : waiter) (c : t) :
  well_formed c → well_formed (abandon e w c).
Proof.
  intros Hwf. apply (well_formed_mono c); try done;
    destruct w; simpl; try done; by rewrite length_alter.
Qed.

Lemma well_formed_open (w : waiter) (c : t) :
  well_formed c →
  (∀ p, waiter_promise w = Some p → p < length (promises c)) →
  well_formed (open w c).
Proof.
  intros Hwf Hbound. unfold open. destruct (isOpen c).
  - by apply well_formed_resume.
  - destruct Hwf as (Hc & Hp & Hw). repeat split; simpl; try done.
    intros w' p [Hin|Hin%list_elem_of_singleton]%elem_of_app Hw'.
    + by apply (Hw w').
    + subst w'. by apply Hbound.
Qed.

Lemma well_formed_new_promise (w : nat → waiter) (c : t) :
  well_formed c →
  (∀ p q, waiter_promise (w p) = Some q → q = p) →
  well_formed (open (w (new_promise c).1) (new_promise c).2).
Proof.
  intros Hwf Hw. apply well_formed_open.
  - apply (well_formed_mono c); simpl; try done.
    rewrite length_app. lia.
  - intros q Hq. apply Hw in Hq as ->. simpl. rewrite length_app. simpl. lia.
Qed.

Lemma well_formed_connect (c : t) : well_formed c → well_formed (connect c).
Proof.
  intros Hwf. unfold connect. destruct (_isConnecting c); [done|].
  unfold open. simpl.
  destruct Hwf as (Hc & Hp & Hw). repeat split; simpl; try done.
  intros w p Hin%list_elem_of_singleton Hw'. by subst w.
Qed.

Lemma well_formed_removeListener (f : fn) (c : t) :
  well_formed c → well_formed (removeListener f c).
Proof.
  intros Hwf. apply (well_formed_mono c); simpl; try done.
  by intros x [_ Hin]%list_elem_of_filter.
Qed.

Lemma well_formed_invoke (l : fn * listener) (event : frame) (c : t) :
  well_formed c → well_formed (invoke l event c).1.
Proof.
  intros Hwf. apply (well_formed_mono c); try done;
    destruct l as [f [messageId p|messageId callback throws|throws]];
    unfold invoke; simpl; try done;
    destruct (JSON_parse event) as [parsed|e]; simpl; try done;
    destruct (object_coercible parsed); simpl; try done;
    destruct (strict_equal_string _ _); simpl; try done.
  - by rewrite length_alter.
  - by intros x [_ Hin]%list_elem_of_filter.
Qed.

Lemma well_formed_record (x : call) (c : t) :
  well_formed c → well_formed (record x c).
Proof. intros Hwf. by apply (well_formed_mono c). Qed.

Lemma well_formed_try_listener (l : fn * listener) (event : frame) (c : t) :
  well_formed c → well_formed (try_listener event l c).1.
Proof.
  intros Hwf. unfold try_listener.
  pose proof (well_formed_invoke l event c Hwf) as H.
  destruct (invoke l event c) as [c' [e|]]; simpl in *; [|done].
  by apply well_formed_record.
Qed.

Lemma well_formed_forEach (event : frame) (ls : list (fn * listener)) (c : t) :
  well_formed c → well_formed (forEach (try_listener event) ls c).1.
Proof.
  revert c. induction ls as [|l ls IH]; intros c Hwf; simpl; [done|].
  pose proof (well_formed_try_listener l event c Hwf) as H.
  pose proof (try_listener_trace l event c) as [Hr _].
  destruct (try_listener event l c) as [c' r]; simpl in *. subst r.
  by apply IH.
Qed.


Lemma length_promises_resume (w : waiter) (c : t) :
  length (promises (resume w c)) = length (promises c).
Proof. destruct w; simpl; by rewrite ?length_alter. Qed.

Lemma length_promises_onOpen (w : waiter) (c : t) :
  length (promises (onOpen w c)) = length (promises c).
Proof.
  unfold onOpen. simpl.
  destruct (onConnectCallback c) as [[e|]|]; simpl; try done;
    by rewrite length_promises_resume.
Qed.

Lemma well_formed_onOpen (w : waiter) (c : t) :
  well_formed c →
  (∀ p, waiter_promise w = Some p → p < length (promises c)) →
  well_formed (onOpen w c).
Proof.
  intros Hwf Hbound. unfold onOpen. simpl.
  assert (well_formed (set_isOpen true c)) as Hwf'
    by by apply (well_formed_mono c).
  destruct (onConnectCallback c) as [[e|]|]; simpl.
  - destruct Hwf as (Hc & Hp & Hw). repeat split; simpl; try done.
    intros w' p [Hin|Hin%list_elem_of_singleton]%elem_of_app Hw'.
    + by apply (Hw w').
    + subst w'. by apply Hbound.
  - apply well_formed_resume; [|done]. by apply well_formed_record.
  - by apply well_formed_resume.
Qed.

Lemma well_formed_foldl_onOpen (ws : list waiter) (c : t) :
  well_formed c →
  (∀ w p, w ∈ ws → waiter_promise w = Some p → p < length (promises c)) →
  well_formed (foldl (λ c w, onOpen w c) c ws).
Proof.
  revert c. induction ws as [|w ws IH]; intros c Hwf Hbound; simpl; [done|].
  apply IH.
  - apply well_formed_onOpen; [done|].
    intros p. apply Hbound. by left.
  - intros w' p Hin. rewrite length_promises_onOpen.
    apply Hbound. by right.
Qed.

Lemma well_formed_foldl_abandon (e : thrown) (ws : list waiter) (c : t) :
  well_formed c → well_formed (foldl (λ c w, abandon e w c) c ws).
Proof.
  revert c. induction ws as [|w ws IH]; intros c Hwf; simpl; [done|].
  by apply IH, well_formed_abandon.
Qed.

Lemma well_formed_errorHandler (e : thrown) (h : nat * fn) (c : t) :
  well_formed c → well_formed (errorHandler e h c).
Proof.
  intros Hwf. apply well_formed_removeListener.
  apply (well_formed_mono c); simpl; try done. by rewrite length_alter.
Qed.

Lemma well_formed_foldl_errorHandler (e : thrown) (hs : list (nat * fn))
    (c : t) :
  well_formed c → well_formed (foldl (λ c h, errorHandler e h c) c hs).
Proof.
  revert c. induction hs as [|h hs IH]; intros c Hwf; simpl; [done|].
  by apply IH, well_formed_errorHandler.
Qed.

Lemma well_formed_step (c : t) (ev : event) :
  well_formed c → well_formed (step c ev).
Proof.
  intros Hwf. pose proof Hwf as (Hc & Hp & Hw).
  destruct ev; simpl.
  - apply well_formed_foldl_onOpen.
    + apply (well_formed_mono c); simpl; try done. by intros w Hin%elem_of_nil.
    + simpl. apply Hw.
  - apply well_formed_foldl_errorHandler, well_formed_foldl_abandon.
    apply (well_formed_mono c); try done;
      unfold handleError; simpl;
      destruct (_shouldReconnect c); simpl; try done;
      by intros w Hin%elem_of_nil.
  - apply (well_formed_mono c); try done;
      unfold onclose; simpl; by destruct (_shouldReconnect c).
  - by apply well_formed_forEach.
  - destruct (timers c) as [|n]; [done|].
    apply well_formed_connect. by apply (well_formed_mono c).
  - by apply well_formed_connect.
  - by apply (well_formed_new_promise awaiting_open); [|intros p q [= <-]].
  - by apply (well_formed_new_promise (awaiting_send method data));
      [|intros p q [= <-]].
  - by apply (well_formed_new_promise
                (awaiting_stream method data callback throws));
      [|intros p q [= <-]].
  - by apply (well_formed_mono c).
  - destruct Hwf as (_ & _ & _). repeat split; simpl; try done.
    + intros n l [Hin|Hin%list_elem_of_singleton]%elem_of_app;
        [by apply (Hc n l)|done].
    + intros x p [Hin|Hin%list_elem_of_singleton]%elem_of_app Hx;
        [by apply (Hp x)|by subst x].
  - by apply well_formed_removeListener.
  - by apply (well_formed_mono c).
Qed.

Lemma well_formed_create (reconnect : bool) (random : nat → string) :
  well_formed (create reconnect random).
Proof.
  repeat split; simpl.
  - by intros n l Hin%elem_of_nil.
  - by intros x p Hin%elem_of_nil.
  - intros w p Hin%list_elem_of_singleton Hw. by subst w.
Qed.

(** Every reachable state is well formed. *)
Lemma reachable_well_formed (c : t) : reachable c → well_formed c.
Proof.
  induction 1 as [r rnd|c ev _ IH].
  - apply well_formed_create.
  - by apply well_formed_step.
Qed.

Lemma reachable_run (c : t) (evs : list event) :
  reachable c → reachable (run c evs).
Proof.
  revert c. induction evs as [|ev evs IH]; intros c Hc; simpl; [done|].
  apply IH. by constructor.
Qed.

End Reachable.

(** ** One turn of the dispatch loop *)

Section Loop.
Import WSClient.

(** What one iteration of the loop in [onmessage] does to the client. *)
Lemma try_listener_effect (l : fn * listener) (event : frame) (c : t) :
  try_listener event l c
  = (set_trace
       (trace c
        ++ [listener_called l.1 event]
        ++ match hands_over l.2 event with
           | Some (callback, data) => [callback_called l.1 callback data]
           | None => []
           end
        ++ match raises l.2 event with
           | Some e => [console_error e]
           | None => []
           end)
       (set_promises
          match fires l.2 event with
          | Some (p, data) => alter (settle (Fulfilled (Data data))) p (promises c)
          | None => promises c
          end
          (set_onMessageListeners
             match fires l.2 event with
             | Some _ => filter (λ x, x.1 ≠ l.1) (onMessageListeners c)
             | None => onMessageListeners c
             end c)),
     None).
Proof.
  destruct c.
  destruct l as [f [messageId p|messageId callback throws|throws]];
    unfold try_listener, invoke, fires, hands_over, raises; simpl.
  - destruct (JSON_parse event) as [parsed|e]; simpl; [|done].
    destruct (object_coercible parsed); simpl.
    + by destruct (strict_equal_string _ _).
    + unfold record, set_trace; simpl. by rewrite <- app_assoc.
  - destruct (JSON_parse event) as [parsed|e]; simpl; [|done].
    destruct (object_coercible parsed); simpl.
    + destruct (strict_equal_string _ _); simpl.
      * destruct (throws _); simpl.
        -- unfold record, set_trace; simpl. by rewrite <- !app_assoc.
        -- unfold record, set_trace; simpl. by rewrite <- !app_assoc.
      * done.
    + unfold record, set_trace; simpl. by rewrite <- app_assoc.
  - destruct (throws event); simpl; [|done].
    unfold record, set_trace; simpl. by rewrite <- app_assoc.
Qed.

End Loop.

(** ** Requests in flight *)

Section InFlight.
Import WSClient.

Variables (f : fn) (messageId : string) (p : nat).

Local Abbreviation ours := (f, reply_listener messageId p).
Local Abbreviation foreign := (foreign f messageId p).

Lemma fires_promise_of (l : listener) (event : frame) (q : nat) (d : value) :
  fires l event = Some (q, d) → promise_of l = Some q.
Proof.
  destruct l as [mid q'| |]; unfold fires; simpl; try done.
  destruct (JSON_parse event); [|done].
  destruct (_ && _); [|done]. by intros [= <- _].
Qed.

(** A frame that our listener lets pass leaves the request in flight. *)
Lemma in_flight_try_listener (event : frame) (x : fn * listener) (c : t) :
  fires (reply_listener messageId p) event = None →
  foreign x →
  in_flight f messageId p c →
  in_flight f messageId p (try_listener event x c).1.
Proof.
  intros Hpass Hx (Hp & Hin & Hall). rewrite try_listener_effect.
  unfold in_flight. simpl.
  destruct Hx as [->|[Hf Hq]]; simpl.
  - by rewrite Hpass.
  - destruct (fires x.2 event) as [[q d]|] eqn:Hfires; [|done].
    apply fires_promise_of in Hfires.
    assert (q ≠ p) as Hne by congruence.
    rewrite list_lookup_alter_ne by done. split; [done|]. split.
    + apply list_elem_of_filter. split; [|done]. simpl. congruence.
    + intros y [_ Hy]%list_elem_of_filter. by apply Hall.
Qed.

Lemma in_flight_forEach (event : frame) (ls : list (fn * listener)) (c : t) :
  fires (reply_listener messageId p) event = None →
  Forall foreign ls →
  in_flight f messageId p c →
  in_flight f messageId p (forEach (try_listener event) ls c).1.
Proof.
  intros Hpass Hls. revert c.
  induction Hls as [|x ls Hx _ IH]; intros c Hc; simpl; [done|].
  pose proof (in_flight_try_listener event x c Hpass Hx Hc) as H.
  rewrite try_listener_effect in H |- *. by apply IH.
Qed.

(** Once answered, always answered: no iteration of the loop undoes it. *)
Lemma answered_try_listener (event : frame) (d : value) (x : fn * listener)
    (c : t) :
  answered f p d c → answered f p d (try_listener event x c).1.
Proof.
  intros [Hp Hout]. rewrite try_listener_effect. unfold answered. simpl.
  destruct (fires x.2 event) as [[q d']|]; [|done]. split.
  - destruct (decide (q = p)) as [->|Hne].
    + by rewrite list_lookup_alter_eq, Hp.
    + by rewrite list_lookup_alter_ne.
  - intros l [_ Hl]%list_elem_of_filter. by apply (Hout l).
Qed.

Lemma answered_forEach (event : frame) (d : value)
    (ls : list (fn * listener)) (c : t) :
  answered f p d c → answered f p d (forEach (try_listener event) ls c).1.
Proof.
  revert c. induction ls as [|x ls IH]; intros c Hc; simpl; [done|].
  pose proof (answered_try_listener event d x c Hc) as H.
  rewrite try_listener_effect in H |- *. by apply IH.
Qed.

(** The frame that our listener fires on answers the request. *)
Lemma in_flight_fires (event : frame) (d : value) (c : t) :
  fires (reply_listener messageId p) event = Some (p, d) →
  in_flight f messageId p c →
  answered f p d (try_listener event ours c).1.
Proof.
  intros Hfires (Hp & Hin & Hall). rewrite try_listener_effect.
  unfold answered. simpl. rewrite Hfires. split.
  - by rewrite list_lookup_alter_eq, Hp.
  - intros l [Hl _]%list_elem_of_filter. by apply Hl.
Qed.

Lemma in_flight_or_answered_try_listener (event : frame) (d : value)
    (x : fn * listener) (c : t) :
  fires (reply_listener messageId p) event = Some (p, d) →
  foreign x →
  in_flight f messageId p c ∨ answered f p d c →
  (in_flight f messageId p (try_listener event x c).1 ∧ x ≠ ours)
  ∨ answered f p d (try_listener event x c).1.
Proof.
  intros Hfires Hx [Hc|Hc]; [|right; by apply answered_try_listener].
  destruct Hx as [->|[Hf Hq]].
  - right. by apply in_flight_fires.
  - left. split; [|intros ->; by apply Hf].
    destruct Hc as (Hp & Hin & Hall). rewrite try_listener_effect.
    unfold in_flight. simpl.
    destruct (fires x.2 event) as [[q d']|] eqn:Hx; [|done].
    apply fires_promise_of in Hx.
    assert (q ≠ p) as Hne by congruence.
    rewrite list_lookup_alter_ne by done. split; [done|]. split.
    + apply list_elem_of_filter. split; [|done]. simpl. congruence.
    + intros y [_ Hy]%list_elem_of_filter. by apply Hall.
Qed.

Lemma answered_by_forEach (event : frame) (d : value)
    (ls : list (fn * listener)) (c : t) :
  fires (reply_listener messageId p) event = Some (p, d) →
  Forall foreign ls →
  in_flight f messageId p c ∨ answered f p d c →
  (in_flight f messageId p (forEach (try_listener event) ls c).1
   ∧ ours ∉ ls)
  ∨ answered f p d (forEach (try_listener event) ls c).1.
Proof.
  intros Hfires Hls. revert c.
  induction Hls as [|x ls Hx _ IH]; intros c Hc; simpl.
  - destruct Hc as [Hc|Hc]; [left|by right]. split; [done|].
    by intros ?%elem_of_nil.
  - pose proof (in_flight_or_answered_try_listener event d x c Hfires Hx Hc)
      as H.
    rewrite try_listener_effect in H |- *.
    destruct H as [[H Hne]|H].
    + destruct (IH _ (or_introl H)) as [[H' Hnotin]|H']; [left|by right].
      split; [done|]. intros [?|?]%elem_of_cons; [by apply Hne|by apply Hnotin].
    + right. by apply answered_forEach.
Qed.

(** [onmessage] on a request in flight. *)
Lemma in_flight_onmessage_pass (event : frame) (c : t) :
  fires (reply_listener messageId p) event = None →
  in_flight f messageId p c →
  in_flight f messageId p (onmessage event c).1.
Proof.
  intros Hpass Hc. apply in_flight_forEach; try done.
  apply Forall_forall. intros x Hx. by apply Hc.
Qed.

Lemma in_flight_onmessage_fires (event : frame) (d : value) (c : t) :
  fires (reply_listener messageId p) event = Some (p, d) →
  in_flight f messageId p c →
  answered f p d (onmessage event c).1.
Proof.
  intros Hfires Hc.
  destruct (answered_by_forEach event d (onMessageListeners c) c Hfires)
    as [[_ Hnotin]|H]; try done.
  - apply Forall_forall. intros x Hx. by apply Hc.
  - by left.
  - destruct Hnotin. apply Hc.
Qed.

End InFlight.

(** ** Listeners that were removed *)

Section Retired.
Import WSClient.

Variable k : nat.

Lemma calls_of_app (g : fn) (tr1 tr2 : list call) :
  calls_of g (tr1 ++ tr2) = calls_of g tr1 ++ calls_of g tr2.
Proof. apply omap_app. Qed.

Lemma undisturbed_refl (c : t) : retired k c → undisturbed k c c.
Proof. by intros Hc. Qed.

Lemma undisturbed_trans (c1 c2 c3 : t) :
  undisturbed k c1 c2 → undisturbed k c2 c3 → undisturbed k c1 c3.
Proof.
  intros (_ & Hcalls & Hcbs) (Hret & Hcalls' & Hcbs').
  split; [done|]. split; congruence.
Qed.

(** A change that registers no closure older than the counter and calls
    nothing keeps a retired closure retired. *)
Lemma undisturbed_intro (c c' : t) :
  retired k c →
  closures c ≤ closures c' →
  (∀ l, (Closure k, l) ∈ onMessageListeners c' →
        (Closure k, l) ∈ onMessageListeners c ∨ closures c ≤ k) →
  calls_of (Closure k) (trace c') = calls_of (Closure k) (trace c) →
  callback_calls (Closure k) (trace c')
  = callback_calls (Closure k) (trace c) →
  undisturbed k c c'.
Proof.
  intros [Hlt Hout] Hclo Hreg Hcalls Hcbs. split; [|done]. split; [lia|].
  intros l Hl. destruct (Hreg l Hl) as [Hin|Hle]; [by apply (Hout l)|lia].
Qed.

Lemma undisturbed_resume (w : waiter) (c : t) :
  retired k c → undisturbed k c (resume w c).
Proof.
  intros Hc.
  destruct w as [|p|method data p|method data callback throws p].
  - apply undisturbed_intro; simpl; try done. by left.
  - apply undisturbed_intro; simpl; try done. by left.
  - apply undisturbed_intro; simpl; try done; [lia|].
    intros l [Hin|Hin%list_elem_of_singleton]%elem_of_app; [by left|].
    injection Hin as -> _. right. lia.
  - apply undisturbed_intro; simpl; try done; [lia|].
    intros l [Hin|Hin%list_elem_of_singleton]%elem_of_app; [by left|].
    injection Hin as -> _. right. lia.
Qed.

Lemma undisturbed_abandon (e : thrown) (w : waiter) (c : t) :
  retired k c → undisturbed k c (abandon e w c).
Proof.
  intros Hc. apply undisturbed_intro; try done;
    destruct w; simpl; try done; by left.
Qed.

Lemma undisturbed_open (w : waiter) (c : t) :
  retired k c → undisturbed k c (open w c).
Proof.
  intros Hc. unfold open. destruct (isOpen c).
  - by apply undisturbed_resume.
  - apply undisturbed_intro; simpl; try done. by left.
Qed.

Lemma undisturbed_connect (c : t) :
  retired k c → undisturbed k c (connect c).
Proof.
  intros Hc. unfold connect. destruct (_isConnecting c); [done|].
  apply undisturbed_intro; simpl; try done. by left.
Qed.

Lemma undisturbed_onOpen (w : waiter) (c : t) :
  retired k c → undisturbed k c (onOpen w c).
Proof.
  intros Hc. unfold onOpen.
  assert (undisturbed k c (set_isOpen true c)) as H0
    by (apply undisturbed_intro; simpl; try done; by left).
  destruct (onConnectCallback (set_isOpen true c)) as [[e|]|] eqn:E.
  - apply undisturbed_intro; simpl; try done; [by left| |].
    + rewrite calls_of_app. simpl. by rewrite app_nil_r.
    + rewrite callback_calls_app. simpl. by rewrite app_nil_r.
  - assert (undisturbed k c (record onConnect_called (set_isOpen true c)))
      as H1.
    { apply undisturbed_intro; simpl; try done; [by left| |].
      - rewrite calls_of_app. simpl. by rewrite app_nil_r.
      - rewrite callback_calls_app. simpl. by rewrite app_nil_r. }
    eapply undisturbed_trans; [exact H1|].
    apply undisturbed_resume, H1.
  - eapply undisturbed_trans; [exact H0|].
    apply undisturbed_resume, H0.
Qed.

Lemma undisturbed_foldl {A} (op : t → A → t) (xs : list A) (c : t) :
  (∀ c x, retired k c → undisturbed k c (op c x)) →
  retired k c → undisturbed k c (foldl op c xs).
Proof.
  intros Hop. revert c.
  induction xs as [|x xs IH]; intros c Hc; simpl; [done|].
  eapply undisturbed_trans; [by apply Hop|]. apply IH, Hop, Hc.
Qed.

Lemma undisturbed_errorHandler (e : thrown) (h : nat * fn) (c : t) :
  retired k c → undisturbed k c (errorHandler e h c).
Proof.
  intros Hc. apply undisturbed_intro; simpl; try done.
  intros l [_ Hin]%list_elem_of_filter. by left.
Qed.

Lemma undisturbed_try_listener (event : frame) (x : fn * listener) (c : t) :
  x.1 ≠ Closure k →
  retired k c → undisturbed k c (try_listener event x c).1.
Proof.
  intros Hx Hc. rewrite try_listener_effect.
  apply undisturbed_intro; simpl; try done.
  - intros l Hl. left.
    destruct (fires x.2 event); [|done].
    by apply list_elem_of_filter in Hl as [_ Hl].
  - rewrite !calls_of_app. simpl. rewrite decide_False by done.
    destruct (hands_over x.2 event) as [[callback data]|],
      (raises x.2 event); simpl; by rewrite app_nil_r.
  - rewrite !callback_calls_app. simpl.
    destruct (hands_over x.2 event) as [[callback data]|],
      (raises x.2 event); simpl; rewrite ?decide_False by done;
      by rewrite app_nil_r.
Qed.

Lemma undisturbed_forEach (event : frame) (ls : list (fn * listener))
    (c : t) :
  Forall (λ x, x.1 ≠ Closure k) ls →
  retired k c → undisturbed k c (forEach (try_listener event) ls c).1.
Proof.
  intros Hls. revert c.
  induction Hls as [|x ls Hx _ IH]; intros c Hc; simpl; [done|].
  pose proof (undisturbed_try_listener event x c Hx Hc) as H.
  rewrite try_listener_effect in H |- *.
  eapply undisturbed_trans; [exact H|]. apply IH, H.
Qed.

(** No event brings a retired closure back, and none calls it. *)
Lemma undisturbed_step (c : t) (ev : event) :
  retired k c → undisturbed k c (step c ev).
Proof.
  intros Hc. destruct ev; simpl.
  - eapply undisturbed_trans.
    + apply (undisturbed_intro c (set_opening [] c)); simpl; try done.
      by left.
    + apply (undisturbed_foldl (λ c w, onOpen w c)).
      * intros c' w. apply undisturbed_onOpen.
      * split; [apply Hc|]. simpl. apply Hc.
  - assert (undisturbed k c (set_opening [] (handleError e c))) as H0.
    { apply undisturbed_intro; try done; unfold handleError; simpl;
        destruct (_shouldReconnect c); simpl; try done; try (by left).
      - rewrite calls_of_app. simpl. by rewrite app_nil_r.
      - rewrite calls_of_app. simpl. by rewrite app_nil_r.
      - rewrite callback_calls_app. simpl. by rewrite app_nil_r.
      - rewrite callback_calls_app. simpl. by rewrite app_nil_r. }
    eapply undisturbed_trans; [exact H0|].
    assert (undisturbed k (set_opening [] (handleError e c))
              (foldl (λ c w, abandon e w c)
                 (set_opening [] (handleError e c))
                 (opening (handleError e c)))) as H1.
    { apply (undisturbed_foldl (λ c w, abandon e w c)); [|apply H0].
      intros c' w. apply undisturbed_abandon. }
    eapply undisturbed_trans; [exact H1|].
    apply (undisturbed_foldl (λ c h, errorHandler e h c)); [|apply H1].
    intros c' h. apply undisturbed_errorHandler.
  - apply undisturbed_intro; try done; unfold onclose; simpl;
      destruct (_shouldReconnect c); simpl; try done; by left.
  - apply undisturbed_forEach; [|done].
    apply Forall_forall. intros [g l] Hin Heq. simpl in Heq. subst g.
    by apply (proj2 Hc l).
  - destruct (timers c) as [|n]; [done|].
    eapply undisturbed_trans.
    + apply (undisturbed_intro c (set_timers n c)); simpl; try done.
      by left.
    + apply undisturbed_connect. split; [apply Hc|]. simpl. apply Hc.
  - by apply undisturbed_connect.
  - eapply undisturbed_trans.
    + apply (undisturbed_intro c (new_promise c).2); simpl; try done.
      by left.
    + apply undisturbed_open. split; [apply Hc|]. simpl. apply Hc.
  - eapply undisturbed_trans.
    + apply (undisturbed_intro c (new_promise c).2); simpl; try done.
      by left.
    + apply undisturbed_open. split; [apply Hc|]. simpl. apply Hc.
  - eapply undisturbed_trans.
    + apply (undisturbed_intro c (new_promise c).2); simpl; try done.
      by left.
    + apply undisturbed_open. split; [apply Hc|]. simpl. apply Hc.
  - apply undisturbed_intro; simpl; try done. by left.
  - apply undisturbed_intro; simpl; try done.
    intros l [Hin|Hin%list_elem_of_singleton]%elem_of_app; [by left|done].
  - apply undisturbed_intro; simpl; try done.
    intros l [_ Hin]%list_elem_of_filter. by left.
  - apply undisturbed_intro; simpl; try done. by left.
Qed.

Lemma undisturbed_run (c : t) (evs : list event) :
  retired k c → undisturbed k c (run c evs).
Proof. apply (undisturbed_foldl step). intros c' ev. apply undisturbed_step. Qed.

End Retired.

(** ** [send] *)

Section Send.
Import WSClient.

Lemma _send_wire (method : string) (data : value) (c : t) :
  wire (_send method data c).2
  = wire c ++ [request_text (random c (draws c)) method data].
Proof.
  unfold _send, request_text. rewrite JSON_stringify_object. simpl.
  by destruct (serialize data).
Qed.

(** The code of [send] after [await this.open()]: it writes the envelope
    and leaves the request in flight. *)
Lemma resume_send_in_flight (method : string) (data : value) (p : nat)
    (c : t) :
  well_formed c → unclaimed p c →
  let c1 := resume (awaiting_send method data p) c in
  in_flight (Closure (closures c)) (random c (draws c)) p c1
  ∧ wire c1 = wire c ++ [request_text (random c (draws c)) method data]
  ∧ onMessageListeners c1
    = onMessageListeners c
      ++ [(Closure (closures c), reply_listener (random c (draws c)) p)]
  ∧ closures c1 = S (closures c).
Proof.
  intros (Hc & _ & _) [Hp Hfree]. cbv zeta.
  assert (wire (resume (awaiting_send method data p) c)
          = wire (_send method data c).2) as -> by reflexivity.
  rewrite _send_wire. simpl. repeat split; try done.
  - apply elem_of_app. right. by apply list_elem_of_singleton.
  - intros x [Hin|Hin%list_elem_of_singleton]%elem_of_app; [right|by left].
    split; [|by apply Hfree].
    destruct x as [[n|u] l]; simpl; [|done].
    intros [= ->]. apply Hc in Hin. lia.
Qed.

(** A promise just created is unclaimed in a well-formed state. *)
Lemma new_promise_unclaimed (c : t) :
  well_formed c →
  well_formed (new_promise c).2
  ∧ unclaimed (length (promises c)) (new_promise c).2.
Proof.
  intros Hwf. split.
  - apply (well_formed_mono c); simpl; try done. rewrite length_app. lia.
  - destruct Hwf as (_ & Hp & _). split; simpl.
    + by rewrite lookup_app_r, Nat.sub_diag.
    + intros x Hin Hx. specialize (Hp x _ Hin Hx). lia.
Qed.

Lemma fires_reply (messageId : string) (p : nat) (reply : frame)
    (doc : value) :
  JSON_parse reply = inl doc →
  get "id" doc = VStr messageId →
  fires (reply_listener messageId p) reply = Some (p, get "data" doc).
Proof.
  intros Hparse Hid. unfold fires. rewrite Hparse.
  rewrite (get_coercible "id" doc (VStr messageId)) by done.
  rewrite Hid. simpl. by rewrite String.eqb_refl.
Qed.

Lemma closures_forEach (event : frame) (ls : list (fn * listener)) (c : t) :
  closures (forEach (try_listener event) ls c).1 = closures c.
Proof.
  revert c. induction ls as [|x ls IH]; intros c; simpl; [done|].
  rewrite try_listener_effect. by rewrite IH.
Qed.

(** The listener of a request is one-shot: frames it lets pass leave the
    request in flight, the first frame it fires on answers the request,
    and from then on the listener is never called again. *)
Lemma in_flight_one_shot (k : nat) (messageId : string) (p : nat) (c : t)
    (others : list frame) (reply : frame) (doc : value) :
  in_flight (Closure k) messageId p c →
  k < closures c →
  Forall (λ g, fires (reply_listener messageId p) g = None) others →
  JSON_parse reply = inl doc →
  get "id" doc = VStr messageId →
  let c2 := run c (socket_message <$> (others ++ [reply])) in
  answered (Closure k) p (get "data" doc) c2
  ∧ ∀ evs, calls_of (Closure k) (trace (run c2 evs))
           = calls_of (Closure k) (trace c2).
Proof.
  intros Hc Hk Hothers Hparse Hid. cbv zeta.
  rewrite fmap_app. unfold run at 1 2. rewrite foldl_app. simpl.
  revert c Hc Hk.
  induction Hothers as [|g others Hg _ IH]; intros c Hc Hk; simpl.
  - pose proof (in_flight_onmessage_fires (Closure k) messageId p reply
                  (get "data" doc) c
                  (fires_reply messageId p reply doc Hparse Hid) Hc) as Ha.
    split; [done|]. intros evs.
    apply (undisturbed_run k). split; [|apply Ha].
    unfold onmessage. by rewrite closures_forEach.
  - apply IH.
    + by apply in_flight_onmessage_pass.
    + unfold onmessage. by rewrite closures_forEach.
Qed.

End Send.

Section Suspended.
Import WSClient.

Lemma onConnectCallback_resume (w : waiter) (c : t) :
  onConnectCallback (resume w c) = onConnectCallback c.
Proof. by destruct w. Qed.

Lemma onConnectCallback_onOpen (w : waiter) (c : t) :
  onConnectCallback (onOpen w c) = onConnectCallback c.
Proof.
  unfold onOpen. simpl.
  destruct (onConnectCallback c) as [[e|]|] eqn:E; simpl; try done;
    by rewrite onConnectCallback_resume.
Qed.

Lemma onConnectCallback_foldl_onOpen (ws : list waiter) (c : t) :
  onConnectCallback (foldl (λ c w, onOpen w c) c ws) = onConnectCallback c.
Proof.
  revert c. induction ws as [|w ws IH]; intros c; simpl; [done|].
  by rewrite IH, onConnectCallback_onOpen.
Qed.

Lemma unclaimed_resume (p : nat) (w : waiter) (c : t) :
  waiter_promise w ≠ Some p → unclaimed p c → unclaimed p (resume w c).
Proof.
  intros Hw [Hp Hfree].
  destruct w as [|q|method data q|method data callback throws q];
    simpl in *; split; simpl; try done.
  - rewrite list_lookup_alter_ne; [done|congruence].
  - intros x [Hin|Hin%list_elem_of_singleton]%elem_of_app;
      [by apply Hfree|]. subst x. simpl. congruence.
  - rewrite list_lookup_alter_ne; [done|congruence].
  - intros x [Hin|Hin%list_elem_of_singleton]%elem_of_app;
      [by apply Hfree|]. by subst x.
Qed.

Lemma unclaimed_onOpen (p : nat) (w : waiter) (c : t) :
  waiter_promise w ≠ Some p → unclaimed p c → unclaimed p (onOpen w c).
Proof.
  intros Hw Hc. unfold onOpen. simpl.
  destruct (onConnectCallback c) as [[e|]|]; simpl; try done;
    by apply unclaimed_resume.
Qed.

Lemma unclaimed_foldl_onOpen (p : nat) (ws : list waiter) (c : t) :
  Forall (λ w, waiter_promise w ≠ Some p) ws →
  unclaimed p c → unclaimed p (foldl (λ c w, onOpen w c) c ws).
Proof.
  intros Hws. revert c.
  induction Hws as [|w ws Hw _ IH]; intros c Hc; simpl; [done|].
  by apply IH, unclaimed_onOpen.
Qed.

(** The ['open'] listener of a parked [send]: unless the [onConnect]
    callback throws, the request is sent and in flight. *)
Lemma onOpen_send_in_flight (method : string) (data : value) (p : nat)
    (c : t) :
  well_formed c → unclaimed p c →
  (∀ e, onConnectCallback c ≠ Some (Some e)) →
  ∃ k messageId,
    in_flight (Closure k) messageId p (onOpen (awaiting_send method data p) c)
    ∧ k < closures (onOpen (awaiting_send method data p) c)
    ∧ last (wire (onOpen (awaiting_send method data p) c))
      = Some (request_text messageId method data).
Proof.
  intros Hwf Hfree Hcb. unfold onOpen.
  change (onConnectCallback (set_isOpen true c)) with (onConnectCallback c).
  destruct (onConnectCallback c) as [[e|]|] eqn:E; [by destruct (Hcb e)| |].
  - destruct (resume_send_in_flight method data p
                (record onConnect_called (set_isOpen true c)))
      as (Hin & Hwire & _ & Hclo).
    { by apply well_formed_record, (well_formed_mono c). }
    { exact Hfree. }
    eexists _, _. split; [exact Hin|]. split; [rewrite Hclo; simpl; lia|].
    rewrite Hwire. by rewrite last_snoc.
  - destruct (resume_send_in_flight method data p (set_isOpen true c))
      as (Hin & Hwire & _ & Hclo).
    { by apply (well_formed_mono c). }
    { exact Hfree. }
    eexists _, _. split; [exact Hin|]. split; [rewrite Hclo; simpl; lia|].
    rewrite Hwire. by rewrite last_snoc.
Qed.

(** A call of [send] on a client that is not open writes nothing until the
    socket opens; then, unless the [onConnect] callback throws, the request
    is sent and in flight. *)
Lemma send_suspended (method : string) (data : value) (c : t) :
  well_formed c →
  isOpen c = false →
  let p := length (promises c) in
  let c1 := (send method data c).2 in
  (send method data c).1 = p
  ∧ wire c1 = wire c
  ∧ onMessageListeners c1 = onMessageListeners c
  ∧ ((∀ e, onConnectCallback c ≠ Some (Some e)) →
     ∃ k messageId,
       in_flight (Closure k) messageId p (step c1 socket_open)
       ∧ k < closures (step c1 socket_open)
       ∧ last (wire (step c1 socket_open))
         = Some (request_text messageId method data)).
Proof.
  intros Hwf Hclosed. cbv zeta. unfold send, open. simpl.
  rewrite Hclosed. simpl. repeat split; try done.
  intros Hcb. rewrite foldl_app. simpl.
  set (c0 := set_opening []
               (set_opening (opening c ++ [awaiting_send method data
                                             (length (promises c))])
                  (set_promises (promises c ++ [Pending]) c))).
  set (c' := foldl (λ c w, onOpen w c) c0 (opening c)).
  destruct (new_promise_unclaimed c Hwf) as [Hwf1 Hfree1].
  assert (well_formed c0) as Hwf0.
  { apply (well_formed_mono (new_promise c).2); simpl; try done.
    by intros w Hin%elem_of_nil. }
  assert (unclaimed (length (promises c)) c0) as Hfree0 by exact Hfree1.
  apply onOpen_send_in_flight.
  - apply well_formed_foldl_onOpen; [done|]. simpl.
    intros w q Hin Hq. destruct Hwf as (_ & _ & Hw).
    specialize (Hw w q Hin Hq). rewrite length_app. lia.
  - apply unclaimed_foldl_onOpen; [|done].
    apply Forall_forall. intros w Hin Hq.
    destruct Hwf as (_ & _ & Hw). specialize (Hw w _ Hin Hq). lia.
  - unfold c'. by rewrite onConnectCallback_foldl_onOpen.
Qed.

End Suspended.

Section SendClaim.
Import WSClient.

(** A call of [send] returns a new promise.  While the client is not open
    the call writes and registers nothing; when the socket it waits on
    opens next (and the [onConnect] callback, if any, does not throw) the
    request is sent and in flight.  On an open client the call draws the next id, writes
    the envelope [{ id, method, payload }] and registers a listener of its
    own, which leaves the request in flight.  For a request in flight,
    after any frames that its listener lets pass, the first frame that
    parses to an object with the id resolves the promise with the [data]
    of that frame and removes the listener, which no later event calls
    again. *)
Theorem send_registers_one_shot_listener (c : t) (method : string)
    (data : value) :
  reachable c →
  let p := length (promises c) in
  let c1 := (send method data c).2 in
  (send method data c).1 = p
  ∧ (isOpen c = false →
     wire c1 = wire c
     ∧ onMessageListeners c1 = onMessageListeners c
     ∧ ((∀ e, onConnectCallback c ≠ Some (Some e)) →
        ∃ k messageId,
          in_flight (Closure k) messageId p (step c1 socket_open)
          ∧ k < closures (step c1 socket_open)
          ∧ last (wire (step c1 socket_open))
            = Some (request_text messageId method data)))
  ∧ (isOpen c = true →
     let messageId := random c (draws c) in
     let k := closures c in
     wire c1 = wire c ++ [request_text messageId method data]
     ∧ draws c1 = S (draws c)
     ∧ onMessageListeners c1
       = onMessageListeners c ++ [(Closure k, reply_listener messageId p)]
     ∧ in_flight (Closure k) messageId p c1
     ∧ k < closures c1)
  ∧ (∀ k messageId c' others reply doc,
       in_flight (Closure k) messageId p c' →
       k < closures c' →
       Forall (λ g, fires (reply_listener messageId p) g = None) others →
       JSON_parse reply = inl doc →
       get "id" doc = VStr messageId →
       let c2 := run c' (socket_message <$> (others ++ [reply])) in
       promises c2 !! p = Some (Fulfilled (Data (get "data" doc)))
       ∧ (∀ l, (Closure k, l) ∉ onMessageListeners c2)
       ∧ ∀ evs, calls_of (Closure k) (trace (run c2 evs))
                = calls_of (Closure k) (trace c2)).
Proof.
  intros Hreach. pose proof (reachable_well_formed c Hreach) as Hwf.
  cbv zeta. split; [by unfold send|]. split; [|split].
  - intros Hclosed.
    destruct (send_suspended method data c Hwf Hclosed) as (_ & H1 & H2 & H3).
    done.
  - intros Hopen.
    destruct (new_promise_unclaimed c Hwf) as [Hwf1 Hfree1].
    destruct (resume_send_in_flight method data (length (promises c))
                (new_promise c).2 Hwf1 Hfree1) as (Hin & Hwire & Hreg & Hclo).
    assert (send method data c
            = (length (promises c),
               resume (awaiting_send method data (length (promises c)))
                 (new_promise c).2)) as Hsend.
    { unfold send, open. simpl. by rewrite Hopen. }
    rewrite Hsend. cbn [fst snd].
    split; [exact Hwire|]. split; [done|]. split; [exact Hreg|].
    split; [exact Hin|]. rewrite Hclo. simpl. lia.
  - intros k messageId c' others reply doc Hin Hk Hothers Hparse Hid.
    destruct (in_flight_one_shot k messageId (length (promises c)) c'
                others reply doc Hin Hk Hothers Hparse Hid) as [[Hp Hout] Hnever].
    done.
Qed.

Lemma send_registers_one_shot_listener_witness :
  let reply := Text (VObj [("id", VStr "aaa"); ("data", VStr "hi")]) in
  let c1 := (send "echo" (VStr "hi") open_client).2 in
  isOpen open_client = true
  ∧ promises (run c1 [socket_message reply]) !! 0
    = Some (Fulfilled (Data (VStr "hi"))).
Proof.
  split; [reflexivity|].
  destruct (send_registers_one_shot_listener open_client "echo" (VStr "hi")
              (reachable_run _ [socket_open]
                 (reachable_create false sample_random)))
    as (_ & _ & Hopen & Hshot).
  destruct (Hopen eq_refl) as (_ & _ & _ & Hin & Hk).
  exact (proj1 (Hshot _ _ _ []
                  (Text (VObj [("id", VStr "aaa"); ("data", VStr "hi")]))
                  (VObj [("id", VStr "aaa"); ("data", VStr "hi")])
                  Hin Hk (Forall_nil_2 _) eq_refl eq_refl)).
Defined.

End SendClaim.

(** ** [stream] *)

Section Stream.
Import WSClient.

Variables (f : fn) (messageId : string) (callback : nat)
  (throws : value → option thrown).

Local Abbreviation ours := (f, stream_listener messageId callback throws).

Lemma forEach_app (event : frame) (l1 l2 : list (fn * listener)) (c : t) :
  forEach (try_listener event) (l1 ++ l2) c
  = forEach (try_listener event) l2 (forEach (try_listener event) l1 c).1.
Proof.
  revert c. induction l1 as [|x l1 IH]; intros c; simpl; [done|].
  rewrite try_listener_effect. apply IH.
Qed.

(** Another listener leaves the subscription in place and does not call
    its callback. *)
Lemma subscribed_try_listener (event : frame) (x : fn * listener) (c : t) :
  x.1 ≠ f →
  subscribed f messageId callback throws c →
  subscribed f messageId callback throws (try_listener event x c).1
  ∧ callback_calls f (trace (try_listener event x c).1)
    = callback_calls f (trace c).
Proof.
  intros Hx (others & Hreg & Hothers). rewrite try_listener_effect.
  unfold subscribed. simpl. split.
  - destruct (fires x.2 event); [|by exists others].
    exists (filter (λ y, y.1 ≠ x.1) others). split.
    + rewrite Hreg, filter_app. f_equal.
      rewrite filter_cons_True by (simpl; congruence). done.
    + apply Forall_forall. intros y [_ Hy]%list_elem_of_filter.
      by apply (proj1 (Forall_forall _ _) Hothers).
  - rewrite !callback_calls_app. simpl.
    destruct (hands_over x.2 event) as [[cb d]|], (raises x.2 event); simpl;
      rewrite ?decide_False by done; by rewrite app_nil_r.
Qed.

Lemma subscribed_forEach (event : frame) (ls : list (fn * listener)) (c : t) :
  Forall (λ x, x.1 ≠ f) ls →
  subscribed f messageId callback throws c →
  subscribed f messageId callback throws
    (forEach (try_listener event) ls c).1
  ∧ callback_calls f (trace (forEach (try_listener event) ls c).1)
    = callback_calls f (trace c).
Proof.
  intros Hls. revert c.
  induction Hls as [|x ls Hx _ IH]; intros c Hc; simpl; [done|].
  destruct (subscribed_try_listener event x c Hx Hc) as [H1 H2].
  rewrite try_listener_effect in H1, H2 |- *.
  destruct (IH _ H1) as [H3 H4]. split; [exact H3|].
  etransitivity; [exact H4|exact H2].
Qed.

(** The listener of the subscription hands the data of a frame with its id
    to the callback and stays registered. *)
Lemma subscribed_ours (event : frame) (c : t) :
  subscribed f messageId callback throws c →
  subscribed f messageId callback throws (try_listener event ours c).1
  ∧ callback_calls f (trace (try_listener event ours c).1)
    = callback_calls f (trace c)
      ++ option_list (hands_over (stream_listener messageId callback throws)
                        event).
Proof.
  intros Hc. rewrite try_listener_effect. unfold subscribed. simpl.
  split; [done|].
  rewrite !callback_calls_app. simpl.
  destruct (hands_over _ event) as [[cb d]|], (raises _ event); simpl;
    rewrite ?decide_True by done; by rewrite ?app_nil_r.
Qed.

Lemma subscribed_onmessage (event : frame) (c : t) :
  subscribed f messageId callback throws c →
  subscribed f messageId callback throws (onmessage event c).1
  ∧ callback_calls f (trace (onmessage event c).1)
    = callback_calls f (trace c)
      ++ option_list (hands_over (stream_listener messageId callback throws)
                        event).
Proof.
  intros Hc. pose proof Hc as (others & Hreg & Hothers).
  unfold onmessage. rewrite Hreg, forEach_app.
  destruct (subscribed_forEach event others c Hothers Hc) as [H1 H2].
  simpl.
  destruct (subscribed_ours event _ H1) as [H3 H4].
  rewrite try_listener_effect in H3, H4 |- *.
  split; [exact H3|]. etransitivity; [exact H4|]. by rewrite H2.
Qed.

(** Stopping removes the listener, and stopping again changes nothing. *)
Lemma removeListener_removes (g : fn) (c : t) (l : listener) :
  (g, l) ∉ onMessageListeners (removeListener g c).
Proof. simpl. intros [Hl _]%list_elem_of_filter. by apply Hl. Qed.


End Stream.

(** ** Closures that are yet to be created *)

Section Traced.
Import WSClient.

Lemma made_by_first_mono (n n' : nat) (x : call) :
  n ≤ n' → made_by_first n x → made_by_first n' x.
Proof. intros Hle. destruct x as [[m|u] ?|[m|u] ? ?| |]; simpl; try done; lia. Qed.

(** A change that adds to the trace only calls by closures that exist. *)
Lemma traced_intro (c c' : t) (added : list call) :
  traced c →
  closures c ≤ closures c' →
  trace c' = trace c ++ added →
  Forall (made_by_first (closures c')) added →
  traced c'.
Proof.
  intros Hc Hle Htrace Hadded. unfold traced. rewrite Htrace.
  apply Forall_app. split; [|done].
  eapply Forall_impl; [exact Hc|]. intros x. by apply made_by_first_mono.
Qed.

Lemma traced_resume (w : waiter) (c : t) : traced c → traced (resume w c).
Proof.
  intros Hc. apply (traced_intro c _ []); try done;
    destruct w; simpl; try done; try lia; by rewrite app_nil_r.
Qed.

Lemma traced_abandon (e : thrown) (w : waiter) (c : t) :
  traced c → traced (abandon e w c).
Proof.
  intros Hc. apply (traced_intro c _ []); try done;
    destruct w; simpl; try done; by rewrite app_nil_r.
Qed.

Lemma traced_open (w : waiter) (c : t) : traced c → traced (open w c).
Proof.
  intros Hc. unfold open. destruct (isOpen c); [by apply traced_resume|done].
Qed.

Lemma traced_connect (c : t) : traced c → traced (connect c).
Proof. intros Hc. unfold connect. by destruct (_isConnecting c). Qed.

Lemma traced_onOpen (w : waiter) (c : t) : traced c → traced (onOpen w c).
Proof.
  intros Hc. unfold onOpen.
  change (onConnectCallback (set_isOpen true c)) with (onConnectCallback c).
  destruct (onConnectCallback c) as [[e|]|].
  - apply (traced_intro c _ [onConnect_called]); try done.
    by repeat constructor.
  - apply traced_resume.
    apply (traced_intro c _ [onConnect_called]); try done.
    by repeat constructor.
  - by apply traced_resume.
Qed.

Lemma traced_foldl {A} (op : t → A → t) (xs : list A) (c : t) :
  (∀ c x, traced c → traced (op c x)) →
  traced c → traced (foldl op c xs).
Proof.
  intros Hop. revert c.
  induction xs as [|x xs IH]; intros c Hc; simpl; [done|].
  by apply IH, Hop.
Qed.

Lemma traced_try_listener (event : frame) (x : fn * listener) (c : t) :
  (∀ n, x.1 = Closure n → n < closures c) →
  traced c → traced (try_listener event x c).1.
Proof.
  intros Hx Hc. rewrite try_listener_effect.
  eapply (traced_intro c); [done|done|reflexivity|]. simpl.
  assert (made_by_first (closures c) (listener_called x.1 event)) as H1.
  { destruct x as [[n|u] l]; simpl; [|done]. by apply Hx. }
  apply Forall_cons. split; [done|]. apply Forall_app. split.
  - destruct (hands_over x.2 event) as [[cb d]|]; [|done].
    apply Forall_cons. split; [|done].
    destruct x as [[n|u] l]; simpl; [|done]. by apply Hx.
  - destruct (raises x.2 event); by repeat constructor.
Qed.

Lemma traced_forEach (event : frame) (ls : list (fn * listener)) (c : t) :
  (∀ n l, (Closure n, l) ∈ ls → n < closures c) →
  traced c → traced (forEach (try_listener event) ls c).1.
Proof.
  revert c. induction ls as [|x ls IH]; intros c Hls Hc; simpl; [done|].
  assert (traced (try_listener event x c).1) as H.
  { apply traced_try_listener; [|done].
    intros n Hn. destruct x as [g l]. simpl in Hn. subst g.
    apply (Hls n l). by left. }
  rewrite try_listener_effect in H |- *. apply IH; [|done].
  simpl. intros n l Hin. apply (Hls n l). by right.
Qed.

Lemma traced_step (c : t) (ev : event) :
  well_formed c → traced c → traced (step c ev).
Proof.
  intros (Hwf & _ & _) Hc. destruct ev; simpl.
  - apply (traced_foldl (λ c w, onOpen w c)); [|done].
    intros c' w. apply traced_onOpen.
  - apply (traced_foldl (λ c h, errorHandler e h c)); [by intros c' h|].
    apply (traced_foldl (λ c w, abandon e w c)).
    { intros c' w. apply traced_abandon. }
    apply (traced_intro c _ [console_error e]); try done.
    + unfold handleError. simpl. by destruct (_shouldReconnect c).
    + unfold handleError. simpl. by destruct (_shouldReconnect c).
    + by repeat constructor.
  - unfold onclose. simpl. by destruct (_shouldReconnect c).
  - by apply traced_forEach.
  - destruct (timers c) as [|n]; [done|]. by apply traced_connect.
  - by apply traced_connect.
  - by apply traced_open.
  - by apply traced_open.
  - by apply traced_open.
  - done.
  - done.
  - done.
  - done.
Qed.

Lemma trace_create (r : bool) (rnd : nat → string) :
  trace (create r rnd) = [].
Proof. reflexivity. Qed.

Lemma traced_create (r : bool) (rnd : nat → string) : traced (create r rnd).
Proof. unfold traced. rewrite trace_create. constructor. Qed.

Lemma reachable_traced (c : t) : reachable c → traced c.
Proof.
  induction 1 as [r rnd|c ev Hc IH]; [apply traced_create|].
  apply traced_step; [|done]. by apply reachable_well_formed.
Qed.

(** A closure that is yet to be created was never called and never called
    a callback. *)
Lemma traced_unused (c : t) (n : nat) :
  traced c → closures c ≤ n →
  calls_of (Closure n) (trace c) = []
  ∧ callback_calls (Closure n) (trace c) = [].
Proof.
  unfold traced. intros Hc Hn.
  induction Hc as [|x tr Hx _ IH]; [done|]. destruct IH as [IH1 IH2].
  change (x :: tr) with ([x] ++ tr).
  rewrite calls_of_app, callback_calls_app, IH1, IH2, !app_nil_r.
  destruct x as [[m|u] ?|[m|u] ? ?| |]; simpl in *; try done;
    rewrite decide_False; try done; intros [= ->]; lia.
Qed.

End Traced.

Section StreamClaim.
Import WSClient.


(** The code of [stream] after [await this.open()]. *)
Lemma resume_stream_subscribed (method : string) (data : value)
    (callback : nat) (throws : value → option thrown) (p : nat) (c : t) :
  well_formed c →
  promises c !! p = Some Pending →
  let c1 := resume (awaiting_stream method data callback throws p) c in
  subscribed (Closure (closures c)) (random c (draws c)) callback throws c1
  ∧ promises c1 !! p = Some (Fulfilled (Stop (Closure (closures c))))
  ∧ wire c1 = wire c ++ [request_text (random c (draws c)) method data]
  ∧ closures c1 = S (closures c)
  ∧ trace c1 = trace c.
Proof.
  intros (Hc & _ & _) Hp. cbv zeta.
  assert (wire (resume (awaiting_stream method data callback throws p) c)
          = wire (_send method data c).2) as -> by reflexivity.
  rewrite _send_wire. simpl. repeat split; try done.
  - exists (onMessageListeners c). split; [done|].
    apply Forall_forall. intros [[n|u] l] Hin; simpl; [|done].
    intros [= ->]. apply Hc in Hin. lia.
  - by rewrite list_lookup_alter_eq, Hp.
Qed.



End StreamClaim.

(** ** Requests answered by the server *)

Section RoundTrip.
Import WSClient.

Lemma wire_value_json (v : value) :
  v = VUndefined ∨ is_json v = true → wire_value v = v.
Proof.
  intros [->|Hv]; [done|]. unfold wire_value. by rewrite serialize_json.
Qed.

Lemma wire_value_idempotent (v : value) :
  wire_value (wire_value v) = wire_value v.
Proof.
  apply wire_value_json. unfold wire_value.
  destruct (serialize v) as [d|] eqn:E; simpl; [right|by left].
  by apply (serialize_is_json v).
Qed.

(** What the server reads out of a request envelope. *)
Lemma request_text_members (messageId method : string) (data : value) :
  ∃ doc,
    request_text messageId method data = Text doc
    ∧ object_coercible doc = true
    ∧ get "id" doc = VStr messageId
    ∧ get "method" doc = VStr method
    ∧ get "payload" doc = wire_value data.
Proof.
  unfold request_text, wire_value. eexists. split; [done|].
  destruct (serialize data) as [d|]; simpl; by repeat split.
Qed.

(** [send] on an open client. *)
Lemma send_on_open_client (method : string) (data : value) (c : t) :
  well_formed c →
  isOpen c = true →
  let c1 := (send method data c).2 in
  (send method data c).1 = length (promises c)
  ∧ wire c1 = wire c ++ [request_text (random c (draws c)) method data]
  ∧ in_flight (Closure (closures c)) (random c (draws c))
      (length (promises c)) c1.
Proof.
  intros Hwf Hopen. cbv zeta.
  destruct (new_promise_unclaimed c Hwf) as [Hwf1 Hfree1].
  destruct (resume_send_in_flight method data (length (promises c))
              (new_promise c).2 Hwf1 Hfree1) as (Hin & Hwire & _ & _).
  assert (send method data c
          = (length (promises c),
             resume (awaiting_send method data (length (promises c)))
               (new_promise c).2)) as Hsend.
  { unfold send, open. simpl. by rewrite Hopen. }
  rewrite Hsend. by cbn [fst snd].
Qed.

(** The client's [send] against a server that answers the request with one
    frame carrying the id: the promise resolves with the [data] member of
    that frame. *)
Lemma request_answered (srv : WSServer.t) (method : string) (data : value)
    (c : t) (reply : frame) (doc : value) (completion : option thrown) :
  reachable c →
  isOpen c = true →
  WSServer.handleMessage srv
    (request_text (random c (draws c)) method data)
  = ([reply], completion) →
  JSON_parse reply = inl doc →
  get "id" doc = VStr (random c (draws c)) →
  (Network.request srv method data c).1 = length (promises c)
  ∧ promises (Network.request srv method data c).2 !! length (promises c)
    = Some (Fulfilled (Data (get "data" doc))).
Proof.
  intros Hreach Hopen Hreply Hparse Hid.
  destruct (send_on_open_client method data c
              (reachable_well_formed c Hreach) Hopen) as (Hp & Hwire & Hin).
  unfold Network.request.
  destruct (send method data c) as [p c1] eqn:Hsend. simpl in *. subst p.
  split; [done|].
  rewrite Hwire, drop_app_length. simpl. unfold Network.deliver.
  rewrite Hreply. simpl.
  pose proof (in_flight_onmessage_fires _ _ _ reply (get "data" doc) c1
                (fires_reply _ _ reply doc Hparse Hid) Hin) as [Ha _].
  exact Ha.
Qed.

End RoundTrip.

Section ProtocolClaims.
Import WSClient.

(** The reply of the [echo] handler to a request envelope. *)
Lemma handleMessage_echo (srv : WSServer.t) (messageId : string)
    (payload : value) :
  WSServer.methodList srv !! "echo" = Some Network.echo →
  ∃ doc,
    WSServer.handleMessage srv (request_text messageId "echo" payload)
    = ([Text doc], None)
    ∧ get "id" doc = VStr messageId
    ∧ get "data" doc = wire_value payload.
Proof.
  intros Hecho.
  destruct (request_text_members messageId "echo" payload)
    as (req & Hreq & _ & Hid & Hmethod & Hpayload).
  rewrite Hreq.
  rewrite (handleMessage_named srv (Text req) req "echo") by done.
  unfold WSServer.lookup. rewrite Hecho. cbv beta iota.
  rewrite Hid, Hpayload. unfold Network.echo. simpl.
  pose proof (wire_value_idempotent payload) as Hidem.
  unfold wire_value at 1 in Hidem.
  destruct (serialize (wire_value payload)) as [d|]; simpl in *;
    eexists; repeat split; simpl; try done.
Qed.

(** C3, as amended.  Against a server whose [echo] handler replies with
    its payload, [send('echo', p)] on an open client resolves with the
    value that the JSON text of [p] denotes; that value is [p] itself when
    [p] is absent or is a value JSON can write: [null], a boolean, a finite
    number, a string, or an array or object of such values. *)
Theorem echo_round_trip (srv : WSServer.t) (payload : value) (c : t) :
  reachable c →
  isOpen c = true →
  WSServer.methodList srv !! "echo" = Some Network.echo →
  promises (Network.request srv "echo" payload c).2
    !! (Network.request srv "echo" payload c).1
  = Some (Fulfilled (Data (wire_value payload)))
  ∧ (payload = VUndefined ∨ is_json payload = true →
     promises (Network.request srv "echo" payload c).2
       !! (Network.request srv "echo" payload c).1
     = Some (Fulfilled (Data payload))).
Proof.
  intros Hreach Hopen Hecho.
  destruct (handleMessage_echo srv (random c (draws c)) payload Hecho)
    as (doc & Hreply & Hid & Hdata).
  destruct (request_answered srv "echo" payload c (Text doc) doc None
              Hreach Hopen Hreply eq_refl Hid) as [-> Hp].
  rewrite Hdata in Hp. split; [done|].
  intros Hjson. by rewrite (wire_value_json payload Hjson) in Hp.
Qed.

Lemma echo_round_trip_witness :
  promises
    (Network.request echo_server "echo" (VObj [("foo", VStr "bar")])
       open_client).2 !! 0
  = Some (Fulfilled (Data (VObj [("foo", VStr "bar")]))).
Proof.
  exact (proj2 (echo_round_trip echo_server (VObj [("foo", VStr "bar")])
                  open_client
                  (reachable_run _ [socket_open]
                     (reachable_create false sample_random))
                  eq_refl eq_refl)
           (or_intror eq_refl)).
Defined.

(** C3 as stated fails on a payload that JSON cannot write: an array that
    holds [undefined] comes back as an array that holds [null]. *)
Lemma echo_round_trip_undefined_element :
  promises
    (Network.request echo_server "echo" (VArr [VUndefined]) open_client).2
    !! (Network.request echo_server "echo" (VArr [VUndefined]) open_client).1
  = Some (Fulfilled (Data (VArr [VNull])))
  ∧ VArr [VNull] ≠ VArr [VUndefined].
Proof. split; [by vm_compute|discriminate]. Qed.

(** C2, as amended.  When the method of a request is a non-empty name that
    is neither registered nor a member of [Object.prototype], the server
    answers "Method not found" with the id of the request, and the client,
    whose listener matches a frame by its id alone, resolves the promise
    of [send] successfully with [undefined]. *)
Theorem unknown_method_resolves_undefined (srv : WSServer.t)
    (method : string) (data : value) (c : t) :
  reachable c →
  isOpen c = true →
  method ≠ "" →
  WSServer.methodList srv !! method = None →
  WSServer.Object_prototype !! method = None →
  WSServer.handleMessage srv
    (request_text (random c (draws c)) method data)
  = ([error_reply "Method not found" (VStr (random c (draws c)))], None)
  ∧ promises (Network.request srv method data c).2
      !! (Network.request srv method data c).1
    = Some (Fulfilled (Data VUndefined)).
Proof.
  intros Hreach Hopen Hne Hown Hproto.
  destruct (request_text_members (random c (draws c)) method data)
    as (req & Hreq & _ & Hid & Hmethod & _).
  assert (WSServer.handleMessage srv
            (request_text (random c (draws c)) method data)
          = ([error_reply "Method not found" (VStr (random c (draws c)))],
             None)) as Hreply.
  { rewrite Hreq.
    rewrite (handleMessage_not_found srv (Text req) req method) by done.
    by rewrite Hid. }
  split; [exact Hreply|].
  destruct (request_answered srv method data c _ _ None Hreach Hopen Hreply
              eq_refl eq_refl) as [-> Hp].
  exact Hp.
Qed.

Lemma unknown_method_resolves_undefined_witness :
  promises
    (Network.request WSServer.create "notfound" (VObj []) open_client).2 !! 0
  = Some (Fulfilled (Data VUndefined)).
Proof.
  refine (proj2 (unknown_method_resolves_undefined WSServer.create "notfound"
                   (VObj []) open_client
                   (reachable_run _ [socket_open]
                      (reachable_create false sample_random))
                   eq_refl _ _ _)).
  - discriminate.
  - vm_compute. reflexivity.
  - vm_compute. reflexivity.
Defined.

(** C2 as stated fails: the request of the client test suite for a method
    that is not registered is answered with the "Method not found"
    envelope, and the promise is then fulfilled, with [undefined]. *)
Lemma unknown_method_promise_fulfilled :
  WSServer.handleMessage WSServer.create
    (request_text "aaa" "notfound" (VObj []))
  = ([error_reply "Method not found" (VStr "aaa")], None)
  ∧ (Network.request WSServer.create "notfound" (VObj []) open_client).1 = 0
  ∧ promises
      (Network.request WSServer.create "notfound" (VObj []) open_client).2
      !! 0
    = Some (Fulfilled (Data VUndefined)).
Proof. by vm_compute. Qed.

End ProtocolClaims.

(** ** The connection *)

Section Connection.
Import WSClient.

(** C6.  The claim fails when a reconnect timer is pending at the moment
    [close()] is called: with [reconnect] enabled, a socket error and the
    close that follows it each schedule a timer; [close()] clears
    [_shouldReconnect] but cancels nothing; the timer then runs
    [connect()], which sets [_shouldReconnect] again and creates a second
    socket. *)
Lemma close_with_pending_timer_reconnects :
  let c :=
    run (create true sample_random)
      [socket_error (Error "refused"); socket_close; calls_close] in
  sockets c = 1
  ∧ _shouldReconnect c = false
  ∧ timers c = 2
  ∧ sockets (step c timer_fires) = 2
  ∧ _shouldReconnect (step c timer_fires) = true.
Proof. by vm_compute. Qed.

Lemma settled_connection_foldl {A} (op : t → A → t) (xs : list A) (c : t) :
  (∀ c x, settled_connection c (op c x)) →
  settled_connection c (foldl op c xs).
Proof.
  intros Hop. revert c.
  induction xs as [|x xs IH]; intros c; simpl; [done|].
  destruct (Hop c x) as (H1 & H2 & H3), (IH (op c x)) as (H4 & H5 & H6).
  repeat split; congruence.
Qed.

Lemma settled_connection_resume (c : t) (w : waiter) :
  settled_connection c (resume w c).
Proof. by destruct w. Qed.

Lemma settled_connection_onOpen (c : t) (w : waiter) :
  settled_connection c (onOpen w c).
Proof.
  unfold onOpen.
  change (onConnectCallback (set_isOpen true c)) with (onConnectCallback c).
  destruct (onConnectCallback c) as [[e|]|]; [done| |];
    by destruct w.
Qed.

Lemma settled_connection_forEach (event : frame)
    (ls : list (fn * listener)) (c : t) :
  settled_connection c (forEach (try_listener event) ls c).1.
Proof.
  revert c. induction ls as [|x ls IH]; intros c; simpl; [done|].
  rewrite try_listener_effect.
  destruct (IH (try_listener event x c).1) as (H1 & H2 & H3).
  rewrite try_listener_effect in H1, H2, H3. by repeat split.
Qed.

(** After [close()], as long as no reconnect timer is pending and
    [connect()] is not called, no socket is created. *)
Lemma closed_step (c : t) (ev : event) :
  _shouldReconnect c = false → timers c = 0 → ev ≠ calls_connect →
  settled_connection c (step c ev).
Proof.
  intros Hoff Hnone Hev. destruct ev; simpl; try done.
  - apply (settled_connection_foldl (λ c w, onOpen w c)
             (opening c) (set_opening [] c)).
    intros c' w. apply settled_connection_onOpen.
  - assert (settled_connection c (set_opening [] (handleError e c))) as H0.
    { unfold handleError. simpl. by rewrite Hoff. }
    pose proof (settled_connection_foldl (λ c w, abandon e w c)
                  (opening (handleError e c))
                  (set_opening [] (handleError e c))
                  (λ c' w, ltac:(by destruct w))) as H1.
    pose proof (settled_connection_foldl (λ c h, errorHandler e h c)
                  (errorHandlers
                     (foldl (λ c w, abandon e w c)
                        (set_opening [] (handleError e c))
                        (opening (handleError e c))))
                  (foldl (λ c w, abandon e w c)
                     (set_opening [] (handleError e c))
                     (opening (handleError e c)))
                  (λ c' h, ltac:(done))) as H2.
    destruct H0 as (? & ? & ?), H1 as (? & ? & ?), H2 as (? & ? & ?).
    repeat split; congruence.
  - unfold onclose. simpl. by rewrite Hoff.
  - apply settled_connection_forEach.
  - by rewrite Hnone.
  - unfold open_promise, open. simpl. destruct (isOpen c); by simpl.
  - unfold send, open. simpl. destruct (isOpen c); by simpl.
  - unfold stream, open. simpl. destruct (isOpen c); by simpl.
Qed.

(** [close()] with no reconnect timer pending: whatever the socket reports
    and whatever else is called, short of [connect()], no socket is created
    and no timer is scheduled afterwards. *)
Lemma close_prevents_reconnect (c : t) (evs : list event) :
  timers c = 0 →
  Forall (λ ev, ev ≠ calls_connect) evs →
  sockets (run (close c) evs) = sockets c
  ∧ timers (run (close c) evs) = 0
  ∧ _shouldReconnect (run (close c) evs) = false.
Proof.
  intros Hnone Hevs.
  assert (_shouldReconnect (close c) = false ∧ timers (close c) = 0
          ∧ sockets (close c) = sockets c) as Hstart by done.
  revert Hstart. generalize (close c). clear Hnone.
  induction Hevs as [|ev evs Hev _ IH]; intros c' (Hoff & Hnone & Hs);
    simpl; [done|].
  destruct (closed_step c' ev Hoff Hnone Hev) as (H1 & H2 & H3).
  apply IH. repeat split; congruence.
Qed.

Lemma close_prevents_reconnect_witness :
  let c := run (create true sample_random) [socket_open] in
  let evs :=
    [socket_close; timer_fires; socket_error (Error "gone"); timer_fires] in
  _shouldReconnect c = true
  ∧ sockets (run c evs) = 3
  ∧ sockets (run (close c) evs) = 1.
Proof.
  split; [reflexivity|]. split; [reflexivity|].
  refine (proj1 (close_prevents_reconnect
                   (run (create true sample_random) [socket_open])
                   [socket_close; timer_fires; socket_error (Error "gone");
                    timer_fires] eq_refl _)).
  repeat constructor; discriminate.
Defined.

End Connection.

(** ** The deferred value *)

Section Timeout.
Import Pledge.

(** A promise that is settled stays as it is. *)
Lemma settle_settled {A} (s old : settled A) :
  old ≠ Pending → settle s old = old.
Proof. by destruct old. Qed.

Lemma raced_stable (s : racing) (evs : list event) :
  raced s ≠ Pending → raced (run s evs) = raced s.
Proof.
  revert s. induction evs as [|ev evs IH]; intros s Hs; simpl; [done|].
  assert (raced (step s ev) = raced s) as Hstep
    by (destruct ev; simpl; by apply settle_settled).
  rewrite IH; congruence.
Qed.





End Timeout.

Section PromiseAll.
Import Pledge.







(** What the reactions do to the view. *)
Lemma length_seen (k : nat) (inputs view : list (settled value)) :
  length (seen k inputs view) = length view.
Proof.
  revert k view. induction inputs as [|s rest IH]; intros k view; simpl;
    [done|].
  rewrite IH. destruct s; by rewrite ?length_insert.
Qed.










End PromiseAll.

Section PledgeAll.
Import Pledge.





















End PledgeAll.

Section PledgeAllClaim.
Import Pledge.



End PledgeAllClaim.

(** * More of the server *)

Section ServerCoverage.
Import WSServer.

Lemma handleMessage_catches (srv : t) (message : frame) (parsed : value) :
  JSON_parse message = inl parsed →
  object_coercible parsed = true →
  (handleMessage srv message).2 = None.
Proof.
  intros Hparse Hc. unfold handleMessage. rewrite Hparse, Hc.
  cbv beta iota zeta delta [negb].
  destruct (method_name (get "method" parsed)) as [name|]; [|done].
  destruct (lookup srv name) as [[h|b]|]; [| |done].
  - by destruct (exec _ _) as [out [e|]].
  - by destruct (call_inherited _ _ _) as [out [e|]].
Qed.

(** What [handleMessage] lets escape.  The exceptions of a handler are
    caught and answered; the only exception that leaves [handleMessage] is
    the [TypeError] of the destructuring when the frame is the JSON text
    [null], and then nothing has been sent. *)
Theorem handleMessage_escapes_only_on_null (srv : t) (message : frame) :
  ((handleMessage srv message).2 = None
   ↔ ∀ parsed, JSON_parse message = inl parsed →
               object_coercible parsed = true)
  ∧ ((handleMessage srv message).2 ≠ None →
     handleMessage srv message = ([], Some TypeError)).
Proof.
  destruct (JSON_parse message) as [parsed|e] eqn:Hparse.
  - destruct (object_coercible parsed) eqn:Hc.
    + rewrite (handleMessage_catches srv message parsed Hparse Hc).
      split; [|done]. split; [|done]. by intros _ parsed' [= <-].
    + assert (handleMessage srv message = ([], Some TypeError)) as ->
        by (unfold handleMessage; by rewrite Hparse, Hc).
      split; [|done]. split; [done|].
      intros Hall. specialize (Hall parsed eq_refl). congruence.
  - assert ((handleMessage srv message).2 = None) as ->
      by (unfold handleMessage; by rewrite Hparse).
    split; [|done]. split; [|done]. by intros _ parsed [=].
Qed.

(** A request that names a member of [Object.prototype] for which no
    handler is registered is not answered "Method not found": the member
    is called as if it were a handler.  It never calls [respond], so either
    no frame is sent at all, or the call throws and the only frame is
    "Method handler error". *)
Theorem inherited_member_is_called (srv : t) (message : frame)
    (parsed : value) (name : string) (m : inherited) :
  JSON_parse message = inl parsed →
  get "method" parsed = VStr name →
  methodList srv !! name = None →
  Object_prototype !! name = Some m →
  handleMessage srv message = ([], None)
  ∨ handleMessage srv message
    = ([error_reply "Method handler error" (get "id" parsed)], None).
Proof.
  intros Hparse Hmethod Hown Hproto.
  assert (name ≠ "") as Hne by (intros ->; by vm_compute in Hproto).
  rewrite (handleMessage_named srv message parsed name Hparse Hmethod Hne).
  unfold lookup. rewrite Hown, Hproto.
  change (Inherited <$> Some m) with (Some (Inherited m)). cbv beta iota.
  pose proof (call_inherited_silent srv m (get "payload" parsed)) as Hsilent.
  destruct (call_inherited srv m (get "payload" parsed)) as [out [e|]];
    cbn [fst] in Hsilent; subst out.
  - right. by rewrite send_error_envelope.
  - by left.
Qed.

Lemma inherited_member_is_called_witness :
  handleMessage create (request_text "aaa" "toString" (VObj [])) = ([], None)
  ∨ handleMessage create (request_text "aaa" "toString" (VObj []))
    = ([error_reply "Method handler error" (VStr "aaa")], None).
Proof.
  exact (inherited_member_is_called create
           (request_text "aaa" "toString" (VObj []))
           (VObj [("id", VStr "aaa"); ("method", VStr "toString");
                  ("payload", VObj [])])
           "toString" toString eq_refl eq_refl eq_refl eq_refl).
Defined.

Lemma Object_prototype_toLocaleString (name : string) :
  Object_prototype !! name = Some toLocaleString → name = "toLocaleString".
Proof.
  unfold Object_prototype. intros Hin.
  apply elem_of_list_to_map in Hin;
    [|apply (bool_decide_unpack _); by vm_compute].
  repeat (apply elem_of_cons in Hin as [Hin|Hin]; [by simplify_eq|]).
  by apply elem_of_nil in Hin.
Qed.

(** [on] and the requests it affects, for a name other than [__proto__].
    After [on(name, callback)] a request for [name] is handled by
    [callback], whatever was registered under the name before: the frames
    are those that the calls of [respond] by [callback] write, followed by
    "Method handler error" when it throws.  The empty name is the
    exception: a handler registered under it is never called, since the
    guard answers a request for it "Missing or invalid method".  Frames
    for other methods are handled as before the call, apart from requests
    for [toLocaleString] when [name] is [toString], which reach the new
    handler through [Object.prototype.toLocaleString]. *)
Theorem on_replaces_one_method (srv srv' : t) (name : string)
    (callback : handler) :
  on name callback srv = Some srv' →
  (∀ message parsed,
     JSON_parse message = inl parsed →
     get "method" parsed = VStr name → name ≠ "" →
     let answer :=
       exec (respond (get "id" parsed)) (callback (get "payload" parsed)) in
     handleMessage srv' message
     = (answer.1
        ++ match answer.2 with
           | Some _ =>
               [error_reply "Method handler error" (get "id" parsed)]
           | None => []
           end,
        None))
  ∧ (name = "" →
     ∀ message parsed,
       JSON_parse message = inl parsed →
       object_coercible parsed = true →
       get "method" parsed = VStr name →
       handleMessage srv' message
       = ([error_reply "Missing or invalid method" (get "id" parsed)], None))
  ∧ (∀ message,
       (∀ parsed, JSON_parse message = inl parsed →
                  get "method" parsed ≠ VStr name
                  ∧ (name = "toString" →
                     get "method" parsed ≠ VStr "toLocaleString")) →
       handleMessage srv' message = handleMessage srv message).
Proof.
  unfold on. destruct (decide (name = "__proto__")); [done|].
  intros [= <-]. split; [|split].
  - intros message parsed Hparse Hmethod Hne. cbv zeta.
    rewrite (handleMessage_named _ message parsed name Hparse Hmethod Hne).
    unfold lookup. cbn [methodList]. rewrite lookup_insert_eq.
    cbv beta iota.
    destruct (exec _ _) as [out [e|]]; cbn [fst snd].
    + by rewrite send_error_envelope.
    + by rewrite app_nil_r.
  - intros -> message parsed Hparse Hc Hmethod.
    unfold handleMessage. rewrite Hparse, Hc, Hmethod.
    cbv beta iota zeta delta [negb].
    change (method_name (VStr "")) with (@None string). cbv beta iota.
    by rewrite send_error_envelope.
  - intros message Hother. unfold handleMessage.
    destruct (JSON_parse message) as [parsed|e]; [|done].
    destruct (Hother parsed eq_refl) as [Hne Hlocale].
    destruct (negb (object_coercible parsed)); [done|].
    cbv zeta.
    destruct (method_name (get "method" parsed)) as [name'|] eqn:Hname;
      [|done].
    apply method_name_Some in Hname as [Hname _].
    assert (name' ≠ name) as Hne' by congruence.
    unfold lookup. simpl. rewrite lookup_insert_ne by done.
    destruct (methodList srv !! name') as [h|]; [done|].
    destruct (Object_prototype !! name') as [m|] eqn:Hm; [|done].
    simpl.
    assert (call_inherited
              {| methodList := <[name := callback]> (methodList srv) |} m
              (get "payload" parsed)
            = call_inherited srv m (get "payload" parsed)) as ->; [|done].
    destruct m; try done. simpl.
    rewrite lookup_insert_ne; [done|].
    intros ->. apply Hlocale; [done|]. rewrite Hname.
    by rewrite (Object_prototype_toLocaleString name' Hm).
Qed.

Lemma on_replaces_one_method_witness :
  let first : handler := λ _, Respond (VStr "first") (λ _, Return) in
  let second : handler := λ _, Respond (VStr "second") (λ _, Return) in
  handleMessage
    {| methodList := <["dup" := second]> (<["dup" := first]> ∅) |}
    (Text (VObj [("method", VStr "dup"); ("payload", VStr "x");
                 ("id", VNum (Finite 10))]))
  = ([Text (VObj [("id", VNum (Finite 10)); ("data", VStr "second")])],
     None).
Proof.
  refine (proj1 (on_replaces_one_method
                   {| methodList :=
                        <["dup" := λ _, Respond (VStr "first")
                                          (λ _, Return)]> ∅ |}
                   _ "dup"
                   (λ _, Respond (VStr "second") (λ _, Return)) eq_refl)
            (Text (VObj [("method", VStr "dup"); ("payload", VStr "x");
                         ("id", VNum (Finite 10))]))
            _ eq_refl eq_refl _).
  discriminate.
Defined.

End ServerCoverage.

(** * More of the client *)

Section ClientCoverage.
Import WSClient.

Lemma settled_connection_run (c : t) (evs : list event) :
  _shouldReconnect c = false → timers c = 0 →
  Forall (λ ev, ev ≠ calls_connect) evs →
  settled_connection c (run c evs).
Proof.
  intros Hoff Hnone Hevs. revert c Hoff Hnone.
  induction Hevs as [|ev evs Hev _ IH]; intros c Hoff Hnone; simpl; [done|].
  destruct (closed_step c ev Hoff Hnone Hev) as (H1 & H2 & H3).
  destruct (IH (step c ev)) as (H4 & H5 & H6); [congruence..|].
  repeat split; congruence.
Qed.

Lemma create_without_reconnect (random : nat → string) :
  _shouldReconnect (create false random) = false
  ∧ timers (create false random) = 0
  ∧ sockets (create false random) = 1.
Proof. done. Qed.

(** A client constructed with [reconnect: false] has one socket for life:
    whatever the socket reports and whatever else is called, no timer is
    ever scheduled and no second socket is created, unless [connect()] is
    called again. *)
Theorem reconnect_disabled_one_socket (random : nat → string)
    (evs : list event) :
  Forall (λ ev, ev ≠ calls_connect) evs →
  sockets (run (create false random) evs) = 1
  ∧ timers (run (create false random) evs) = 0.
Proof.
  intros Hevs.
  destruct (create_without_reconnect random) as (Hoff & Hnone & Hone).
  destruct (settled_connection_run (create false random) evs Hoff Hnone Hevs)
    as (_ & H2 & H3).
  split; congruence.
Qed.

Lemma reconnect_disabled_one_socket_witness :
  sockets
    (run (create false sample_random)
       [socket_open; calls_send "echo" (VStr "hi"); socket_close;
        timer_fires; socket_error (Error "gone"); calls_open])
  = 1.
Proof.
  refine (proj1 (reconnect_disabled_one_socket sample_random
                   [socket_open; calls_send "echo" (VStr "hi"); socket_close;
                    timer_fires; socket_error (Error "gone"); calls_open]
                   _)).
  repeat constructor; discriminate.
Defined.

Lemma subscribed_run (f : fn) (messageId : string) (callback : nat)
    (throws : value → option thrown) (frames : list frame) (c : t) :
  subscribed f messageId callback throws c →
  callback_calls f (trace (run c (socket_message <$> frames)))
  = callback_calls f (trace c)
    ++ omap (hands_over (stream_listener messageId callback throws)) frames.
Proof.
  revert c. induction frames as [|event frames IH]; intros c Hc.
  - simpl. by rewrite app_nil_r.
  - destruct (subscribed_onmessage f messageId callback throws event c Hc)
      as [Hnext Hcalls].
    rewrite fmap_cons.
    change (run c (socket_message event :: (socket_message <$> frames)))
      with (run (onmessage event c).1 (socket_message <$> frames)).
    rewrite (IH _ Hnext), Hcalls, <- app_assoc. f_equal.
    simpl. by destruct (hands_over _ event).
Qed.

(** A stream hands every reply to its callback, in the order of arrival:
    after [stream] on an open client, the callback has been called once
    for each frame that parses to an object with the id of the request,
    with the [data] member of that frame, and for no other frame.  This
    holds whatever the callback does: an exception it throws is caught in
    the loop of [onmessage] and the stream goes on. *)
Theorem stream_hands_over_every_reply (c : t) (method : string)
    (data : value) (callback : nat) (throws : value → option thrown)
    (frames : list frame) :
  reachable c →
  isOpen c = true →
  let c1 := (stream method data callback throws c).2 in
  callback_calls (Closure (closures c))
    (trace (run c1 (socket_message <$> frames)))
  = omap (hands_over
            (stream_listener (random c (draws c)) callback throws)) frames.
Proof.
  intros Hreach Hopen. pose proof (reachable_well_formed c Hreach) as Hwf.
  cbv zeta.
  destruct (new_promise_unclaimed c Hwf) as [Hwf1 [Hp1 _]].
  destruct (resume_stream_subscribed method data callback throws
              (length (promises c)) (new_promise c).2 Hwf1 Hp1)
    as (Hsub & _ & _ & _ & Htrace).
  assert (stream method data callback throws c
          = (length (promises c),
             resume (awaiting_stream method data callback throws
                       (length (promises c))) (new_promise c).2)) as ->.
  { unfold stream, open. simpl. by rewrite Hopen. }
  cbn [snd].
  change (closures (new_promise c).2) with (closures c) in Hsub.
  change (random (new_promise c).2 (draws (new_promise c).2))
    with (random c (draws c)) in Hsub.
  rewrite (subscribed_run _ _ _ _ frames _ Hsub), Htrace.
  change (trace (new_promise c).2) with (trace c).
  destruct (traced_unused c (closures c) (reachable_traced c Hreach))
    as [_ ->]; done.
Qed.

Lemma stream_hands_over_every_reply_witness :
  let push (id d : string) :=
    Text (VObj [("id", VStr id); ("data", VStr d)]) in
  let c1 := (stream "feed" (VObj []) 7 (λ _, Some (Error "oops"))
               open_client).2 in
  callback_calls (Closure (closures open_client))
    (trace (run c1 (socket_message
                      <$> [push "aaa" "a"; Garbage "}{"; push "zzz" "x";
                           push "aaa" "b"])))
  = [(7, VStr "a"); (7, VStr "b")].
Proof.
  exact (stream_hands_over_every_reply open_client "feed" (VObj []) 7
           (λ _, Some (Error "oops"))
           [Text (VObj [("id", VStr "aaa"); ("data", VStr "a")]);
            Garbage "}{";
            Text (VObj [("id", VStr "zzz"); ("data", VStr "x")]);
            Text (VObj [("id", VStr "aaa"); ("data", VStr "b")])]
           (reachable_run _ [socket_open]
              (reachable_create false sample_random)) eq_refl).
Defined.

End ClientCoverage.

(** * Requests and what the handler does *)

Section HandlerOutcome.
Import WSClient.

(** A handler that calls [respond] once and returns: the promise of [send]
    resolves with the data the handler passed, as JSON carries it.  The
    payload the handler sees is the one the client sent, as JSON carries
    it. *)
Theorem handler_reply_reaches_client (srv : WSServer.t) (method : string)
    (data reply : value) (h : WSServer.handler)
    (next : option thrown → WSServer.run) (c : t) :
  reachable c →
  isOpen c = true →
  method ≠ "" →
  WSServer.methodList srv !! method = Some h →
  h (wire_value data) = WSServer.Respond reply next →
  next None = WSServer.Return →
  promises (Network.request srv method data c).2
    !! (Network.request srv method data c).1
  = Some (Fulfilled (Data (wire_value reply))).
Proof.
  intros Hreach Hopen Hne Hown Hresponds Hreturns.
  destruct (request_text_members (random c (draws c)) method data)
    as (req & Hreq & _ & Hid & Hmethod & Hpayload).
  assert (∃ doc,
            WSServer.handleMessage srv
              (request_text (random c (draws c)) method data)
            = ([Text doc], None)
            ∧ get "id" doc = VStr (random c (draws c))
            ∧ get "data" doc = wire_value reply)
    as (doc & Hreply & Hdocid & Hdata).
  { rewrite Hreq.
    rewrite (handleMessage_named srv (Text req) req method) by done.
    unfold WSServer.lookup. rewrite Hown. cbv beta iota.
    rewrite Hid, Hpayload, Hresponds. simpl. rewrite Hreturns. simpl.
    unfold wire_value.
    destruct (serialize reply) as [d|]; simpl; eexists; by repeat split. }
  destruct (request_answered srv method data c (Text doc) doc None
              Hreach Hopen Hreply eq_refl Hdocid) as [-> Hp].
  by rewrite Hdata in Hp.
Qed.

Lemma handler_reply_reaches_client_witness :
  promises
    (Network.request
       {| WSServer.methodList :=
            <["dup" := λ _, WSServer.Respond (VStr "second")
                              (λ _, WSServer.Return)]> ∅ |}
       "dup" (VStr "x") open_client).2 !! 0
  = Some (Fulfilled (Data (VStr "second"))).
Proof.
  refine (handler_reply_reaches_client
            {| WSServer.methodList :=
                 <["dup" := λ _, WSServer.Respond (VStr "second")
                                   (λ _, WSServer.Return)]> ∅ |}
            "dup" (VStr "x") (VStr "second")
            (λ _, WSServer.Respond (VStr "second") (λ _, WSServer.Return))
            (λ _, WSServer.Return) open_client
            (reachable_run _ [socket_open]
               (reachable_create false sample_random))
            eq_refl _ eq_refl eq_refl eq_refl).
  discriminate.
Defined.

End HandlerOutcome.

(** * Promises settle once *)

Section SettledPromises.
Import WSClient.

Lemma kept_refl (c : t) : kept c c.
Proof. by split. Qed.

Lemma kept_trans (c1 c2 c3 : t) : kept c1 c2 → kept c2 c3 → kept c1 c3.
Proof.
  intros [H1 H2] [H3 H4]. split; [lia|].
  intros p s Hp Hs. apply H4; [by apply H2|done].
Qed.

Lemma kept_same (c c' : t) : promises c' = promises c → kept c c'.
Proof. intros H. unfold kept. rewrite H. by split. Qed.

Lemma kept_settle (c c' : t) (s : settled) (q : nat) :
  promises c' = alter (settle s) q (promises c) → kept c c'.
Proof.
  intros H. unfold kept. rewrite H, length_alter. split; [done|].
  intros p s0 Hp Hs. destruct (decide (p = q)) as [->|Hne].
  - rewrite list_lookup_alter_eq, Hp. simpl. by destruct s0.
  - by rewrite list_lookup_alter_ne.
Qed.

Lemma kept_new_promise (c : t) : kept c (new_promise c).2.
Proof.
  split; simpl.
  - rewrite length_app. lia.
  - intros p s Hp _. by apply lookup_app_l_Some.
Qed.

Lemma kept_resume (w : waiter) (c : t) : kept c (resume w c).
Proof.
  destruct w as [|p|method data p|method data callback throws p].
  - by apply kept_same.
  - by apply (kept_settle _ _ (Fulfilled (Data VUndefined)) p).
  - by apply kept_same.
  - by apply (kept_settle _ _
                (Fulfilled (Stop (Closure (closures c)))) p).
Qed.

Lemma kept_abandon (e : thrown) (w : waiter) (c : t) :
  kept c (abandon e w c).
Proof.
  destruct w as [|p|method data p|method data callback throws p];
    [by apply kept_same|by apply (kept_settle _ _ (Rejected e) p)..].
Qed.

Lemma kept_open (w : waiter) (c : t) : kept c (open w c).
Proof.
  unfold open. destruct (isOpen c); [apply kept_resume|by apply kept_same].
Qed.

Lemma kept_connect (c : t) : kept c (connect c).
Proof.
  unfold connect. destruct (_isConnecting c); [apply kept_refl|].
  cbv zeta. eapply kept_trans; [|apply kept_open]. by apply kept_same.
Qed.

Lemma kept_onOpen (w : waiter) (c : t) : kept c (onOpen w c).
Proof.
  unfold onOpen. cbv zeta.
  change (onConnectCallback (set_isOpen true c)) with (onConnectCallback c).
  destruct (onConnectCallback c) as [[e|]|].
  - by apply kept_same.
  - eapply kept_trans; [|apply kept_resume]. by apply kept_same.
  - eapply kept_trans; [|apply kept_resume]. by apply kept_same.
Qed.

Lemma kept_foldl {A} (op : t → A → t) (xs : list A) (c : t) :
  (∀ c x, kept c (op c x)) → kept c (foldl op c xs).
Proof.
  intros Hop. revert c.
  induction xs as [|x xs IH]; intros c; simpl; [apply kept_refl|].
  eapply kept_trans; [apply Hop|apply IH].
Qed.

Lemma kept_try_listener (event : frame) (l : fn * listener) (c : t) :
  kept c (try_listener event l c).1.
Proof.
  rewrite try_listener_effect. cbn [fst].
  destruct (fires l.2 event) as [[p data]|].
  - by apply (kept_settle _ _ (Fulfilled (Data data)) p).
  - by apply kept_same.
Qed.

Lemma kept_forEach (event : frame) (ls : list (fn * listener)) (c : t) :
  kept c (forEach (try_listener event) ls c).1.
Proof.
  revert c. induction ls as [|x ls IH]; intros c; simpl; [apply kept_refl|].
  pose proof (kept_try_listener event x c) as Hx.
  rewrite try_listener_effect in Hx |- *. cbn [fst] in Hx.
  eapply kept_trans; [exact Hx|apply IH].
Qed.

Lemma kept_errorHandler (e : thrown) (h : nat * fn) (c : t) :
  kept c (errorHandler e h c).
Proof. by apply (kept_settle _ _ (Rejected e) h.1). Qed.

Lemma kept_step (c : t) (ev : event) : kept c (step c ev).
Proof.
  destruct ev; simpl.
  - eapply kept_trans;
      [|apply (kept_foldl (λ c w, onOpen w c)); intros c' w;
        apply kept_onOpen].
    by apply kept_same.
  - eapply kept_trans;
      [|apply (kept_foldl (λ c h, errorHandler e h c)); intros c' h;
        apply kept_errorHandler].
    eapply kept_trans;
      [|apply (kept_foldl (λ c w, abandon e w c)); intros c' w;
        apply kept_abandon].
    apply kept_same. unfold handleError. simpl.
    by destruct (_shouldReconnect c).
  - apply kept_same. unfold onclose. simpl. by destruct (_shouldReconnect c).
  - apply kept_forEach.
  - destruct (timers c) as [|n]; [apply kept_refl|].
    eapply kept_trans; [|apply kept_connect]. by apply kept_same.
  - apply kept_connect.
  - eapply kept_trans; [apply kept_new_promise|apply kept_open].
  - eapply kept_trans; [apply kept_new_promise|apply kept_open].
  - eapply kept_trans; [apply kept_new_promise|apply kept_open].
  - by apply kept_same.
  - by apply kept_same.
  - by apply kept_same.
  - by apply kept_same.
Qed.

Lemma kept_run (c : t) (evs : list event) : kept c (run c evs).
Proof. apply (kept_foldl step). apply kept_step. Qed.

End SettledPromises.

(** * A socket error while a request is in flight *)

Section SocketError.
Import WSClient.

Lemma handlers_bounded_mono (c c' : t) :
  handlers_bounded c →
  length (promises c) ≤ length (promises c') →
  (∀ h, h ∈ errorHandlers c' → h ∈ errorHandlers c) →
  handlers_bounded c'.
Proof.
  intros Hc Hlen Hsub h Hin. apply Hsub, Hc in Hin. lia.
Qed.

Lemma handlers_bounded_resume (w : waiter) (c : t) :
  handlers_bounded c →
  (∀ p, waiter_promise w = Some p → p < length (promises c)) →
  handlers_bounded (resume w c).
Proof.
  intros Hc Hbound.
  destruct w as [|p|method data p|method data callback throws p].
  - by apply (handlers_bounded_mono c).
  - apply (handlers_bounded_mono c); simpl; try done.
    by rewrite length_alter.
  - intros h. simpl.
    intros [Hin|Hin%list_elem_of_singleton]%elem_of_app.
    + by apply Hc.
    + subst h. by apply Hbound.
  - apply (handlers_bounded_mono c); simpl; try done.
    by rewrite length_alter.
Qed.

Lemma handlers_bounded_onOpen (w : waiter) (c : t) :
  handlers_bounded c →
  (∀ p, waiter_promise w = Some p → p < length (promises c)) →
  handlers_bounded (onOpen w c).
Proof.
  intros Hc Hbound. unfold onOpen. cbv zeta.
  change (onConnectCallback (set_isOpen true c)) with (onConnectCallback c).
  destruct (onConnectCallback c) as [[e|]|].
  - by apply (handlers_bounded_mono c).
  - apply handlers_bounded_resume; [|done].
    by apply (handlers_bounded_mono c).
  - apply handlers_bounded_resume; [|done].
    by apply (handlers_bounded_mono c).
Qed.

Lemma handlers_bounded_foldl_onOpen (ws : list waiter) (c : t) :
  handlers_bounded c →
  (∀ w p, w ∈ ws → waiter_promise w = Some p → p < length (promises c)) →
  handlers_bounded (foldl (λ c w, onOpen w c) c ws).
Proof.
  revert c. induction ws as [|w ws IH]; intros c Hc Hbound; simpl; [done|].
  apply IH.
  - apply handlers_bounded_onOpen; [done|].
    intros p. apply Hbound. by left.
  - intros w' p Hin. rewrite length_promises_onOpen.
    apply Hbound. by right.
Qed.

Lemma handlers_bounded_foldl {A} (op : t → A → t) (xs : list A) (c : t) :
  (∀ c x, handlers_bounded c → handlers_bounded (op c x)) →
  handlers_bounded c → handlers_bounded (foldl op c xs).
Proof.
  intros Hop. revert c.
  induction xs as [|x xs IH]; intros c Hc; simpl; [done|].
  by apply IH, Hop.
Qed.

Lemma handlers_bounded_abandon (e : thrown) (w : waiter) (c : t) :
  handlers_bounded c → handlers_bounded (abandon e w c).
Proof.
  intros Hc. apply (handlers_bounded_mono c); [done| |].
  - apply (kept_abandon e w c).
  - by destruct w.
Qed.

Lemma handlers_bounded_errorHandler (e : thrown) (h : nat * fn) (c : t) :
  handlers_bounded c → handlers_bounded (errorHandler e h c).
Proof.
  intros Hc. apply (handlers_bounded_mono c); [done| |done].
  apply (kept_errorHandler e h c).
Qed.

Lemma errorHandlers_forEach (event : frame) (ls : list (fn * listener))
    (c : t) :
  errorHandlers (forEach (try_listener event) ls c).1 = errorHandlers c.
Proof.
  revert c. induction ls as [|x ls IH]; intros c; simpl; [done|].
  rewrite try_listener_effect. by rewrite IH.
Qed.

Lemma handlers_bounded_open (w : waiter) (c : t) :
  handlers_bounded c →
  (∀ p, waiter_promise w = Some p → p < length (promises c)) →
  handlers_bounded (open w c).
Proof.
  intros Hc Hbound. unfold open. destruct (isOpen c).
  - by apply handlers_bounded_resume.
  - by apply (handlers_bounded_mono c).
Qed.

Lemma handlers_bounded_connect (c : t) :
  handlers_bounded c → handlers_bounded (connect c).
Proof.
  intros Hc. unfold connect. destruct (_isConnecting c); [done|].
  cbv zeta. apply handlers_bounded_open; [|done].
  by intros h Hin%elem_of_nil.
Qed.

Lemma handlers_bounded_new_promise (w : nat → waiter) (c : t) :
  handlers_bounded c →
  (∀ p q, waiter_promise (w p) = Some q → q = p) →
  handlers_bounded (open (w (length (promises c))) (new_promise c).2).
Proof.
  intros Hc Hw. apply handlers_bounded_open.
  - apply (handlers_bounded_mono c); [done| |done].
    apply (kept_new_promise c).
  - intros q Hq. apply Hw in Hq as ->. simpl. rewrite length_app. simpl. lia.
Qed.

Lemma handlers_bounded_step (c : t) (ev : event) :
  well_formed c → handlers_bounded c → handlers_bounded (step c ev).
Proof.
  intros (_ & _ & Hw) Hc. destruct ev; simpl.
  - apply handlers_bounded_foldl_onOpen; [|exact Hw].
    by apply (handlers_bounded_mono c).
  - apply (handlers_bounded_foldl (λ c h, errorHandler e h c)).
    { intros c' h. apply handlers_bounded_errorHandler. }
    apply (handlers_bounded_foldl (λ c w, abandon e w c)).
    { intros c' w. apply handlers_bounded_abandon. }
    apply (handlers_bounded_mono c); [done|..];
      unfold handleError; simpl; by destruct (_shouldReconnect c).
  - apply (handlers_bounded_mono c); [done|..];
      unfold onclose; simpl; by destruct (_shouldReconnect c).
  - apply (handlers_bounded_mono c); [done| |].
    + apply (kept_forEach data (onMessageListeners c) c).
    + unfold onmessage. by rewrite errorHandlers_forEach.
  - destruct (timers c) as [|n]; [done|].
    apply handlers_bounded_connect. by apply (handlers_bounded_mono c).
  - by apply handlers_bounded_connect.
  - by apply (handlers_bounded_new_promise awaiting_open); [|intros p q [= <-]].
  - by apply (handlers_bounded_new_promise (awaiting_send method data));
      [|intros p q [= <-]].
  - by apply (handlers_bounded_new_promise
                (awaiting_stream method data callback throws));
      [|intros p q [= <-]].
  - by apply (handlers_bounded_mono c).
  - by apply (handlers_bounded_mono c).
  - by apply (handlers_bounded_mono c).
  - by apply (handlers_bounded_mono c).
Qed.

Lemma errorHandlers_create (r : bool) (rnd : nat → string) :
  errorHandlers (create r rnd) = [].
Proof. reflexivity. Qed.

Lemma reachable_handlers_bounded (c : t) :
  reachable c → handlers_bounded c.
Proof.
  induction 1 as [r rnd|c ev Hc IH].
  - intros h Hin. rewrite errorHandlers_create in Hin.
    by apply elem_of_nil in Hin.
  - apply handlers_bounded_step; [|done]. by apply reachable_well_formed.
Qed.

Lemma pending_foldl_abandon (e : thrown) (ws : list waiter) (c : t)
    (p : nat) :
  promises c !! p = Some Pending →
  (∀ w q, w ∈ ws → waiter_promise w = Some q → q ≠ p) →
  promises (foldl (λ c w, abandon e w c) c ws) !! p = Some Pending
  ∧ errorHandlers (foldl (λ c w, abandon e w c) c ws) = errorHandlers c.
Proof.
  revert c. induction ws as [|w ws IH]; intros c Hp Hws; simpl; [done|].
  destruct (IH (abandon e w c)) as [H1 H2].
  - assert (∀ q, waiter_promise w = Some q → q ≠ p) as Hw
      by (intros q; apply Hws; by left).
    destruct w as [|q|method data q|method data callback throws q]; simpl;
      [done|rewrite list_lookup_alter_ne; [done|by apply Hw]..].
  - intros w' q Hin. apply Hws. by right.
  - split; [done|]. rewrite H2. by destruct w.
Qed.

Lemma pending_foldl_errorHandler (e : thrown) (hs : list (nat * fn)) (c : t)
    (p : nat) :
  promises c !! p = Some Pending →
  (∀ h, h ∈ hs → h.1 ≠ p) →
  promises (foldl (λ c h, errorHandler e h c) c hs) !! p = Some Pending.
Proof.
  revert c. induction hs as [|h hs IH]; intros c Hp Hhs; simpl; [done|].
  apply IH.
  - simpl. rewrite list_lookup_alter_ne; [done|]. apply Hhs. by left.
  - intros h' Hin. apply Hhs. by right.
Qed.

(** The ['error'] listeners run: a pending request whose listener was
    attached last is rejected and its message listener removed. *)
Lemma socket_error_rejects (e : thrown) (c : t) (p : nat) (f : fn)
    (old : list (nat * fn)) :
  errorHandlers c = old ++ [(p, f)] →
  promises c !! p = Some Pending →
  (∀ w q, w ∈ opening c → waiter_promise w = Some q → q ≠ p) →
  (∀ h, h ∈ old → h.1 ≠ p) →
  promises (step c (socket_error e)) !! p = Some (Rejected e)
  ∧ ∀ l, (f, l) ∉ onMessageListeners (step c (socket_error e)).
Proof.
  intros Hhandlers Hp Hws Hold. simpl.
  assert (promises (set_opening [] (handleError e c)) = promises c
          ∧ errorHandlers (set_opening [] (handleError e c))
            = errorHandlers c
          ∧ opening (handleError e c) = opening c) as (H1 & H2 & H3)
    by (unfold handleError; simpl; by destruct (_shouldReconnect c)).
  rewrite H3.
  destruct (pending_foldl_abandon e (opening c)
              (set_opening [] (handleError e c)) p) as [H4 H5];
    [by rewrite H1|done|].
  rewrite H5, H2, Hhandlers, foldl_app. simpl.
  set (c' := foldl (λ c h, errorHandler e h c) _ old).
  assert (promises c' !! p = Some Pending) as H6
    by by apply pending_foldl_errorHandler.
  split.
  - by rewrite list_lookup_alter_eq, H6.
  - intros l. apply (removeListener_removes f (reject p e c') l).
Qed.

(** When the socket reports an error while a request is in flight, the
    promise of [send] is rejected with the error and the listener of the
    request is removed; the promise stays rejected whatever follows, a late
    reply included. *)
Theorem socket_error_rejects_request (c : t) (method : string)
    (data : value) (e : thrown) (evs : list event) :
  reachable c →
  isOpen c = true →
  let p := length (promises c) in
  let c1 := (send method data c).2 in
  let c2 := step c1 (socket_error e) in
  promises c1 !! p = Some Pending
  ∧ promises c2 !! p = Some (Rejected e)
  ∧ (∀ l, (Closure (closures c), l) ∉ onMessageListeners c2)
  ∧ promises (run c2 evs) !! p = Some (Rejected e).
Proof.
  intros Hreach Hopen. cbv zeta.
  pose proof (reachable_well_formed c Hreach) as (_ & _ & Hw).
  pose proof (reachable_handlers_bounded c Hreach) as Hh.
  assert (send method data c
          = (length (promises c),
             resume (awaiting_send method data (length (promises c)))
               (new_promise c).2)) as ->.
  { unfold send, open. simpl. by rewrite Hopen. }
  cbn [snd].
  set (c1 := resume _ _).
  assert (promises c1 = promises c ++ [Pending]) as Hpromises by done.
  assert (errorHandlers c1
          = errorHandlers c ++ [(length (promises c), Closure (closures c))])
    as Hhandlers by done.
  assert (opening c1 = opening c) as Hopening by done.
  assert (promises c1 !! length (promises c) = Some Pending) as Hp
    by by rewrite Hpromises, lookup_app_r, Nat.sub_diag.
  destruct (socket_error_rejects e c1 (length (promises c))
              (Closure (closures c)) (errorHandlers c) Hhandlers Hp)
    as [Hrejected Hremoved].
  - rewrite Hopening. intros w q Hin Hq. specialize (Hw w q Hin Hq). lia.
  - intros h Hin. specialize (Hh h Hin). lia.
  - repeat split; try done.
    apply (kept_run _ evs); [exact Hrejected|done].
Qed.

Lemma socket_error_rejects_request_witness :
  let c1 := (send "echo" (VStr "hi") open_client).2 in
  let c2 := step c1 (socket_error (Error "gone")) in
  promises
    (run c2
       [socket_message
          (Text (VObj [("id", VStr "aaa"); ("data", VStr "late")]))]) !! 0
  = Some (Rejected (Error "gone")).
Proof.
  exact (proj2 (proj2 (proj2
           (socket_error_rejects_request open_client "echo" (VStr "hi")
              (Error "gone")
              [socket_message
                 (Text (VObj [("id", VStr "aaa"); ("data", VStr "late")]))]
              (reachable_run _ [socket_open]
                 (reachable_create false sample_random)) eq_refl)))).
Defined.

End SocketError.

(** * Listeners of the caller *)

Section UserListener.
Import WSClient.

Variables (f : nat) (throws : frame → option thrown).

Local Abbreviation ours := (User f, external throws).

Lemma calls_of_try_listener (g : fn) (event : frame) (x : fn * listener)
    (c : t) :
  calls_of g (trace (try_listener event x c).1)
  = calls_of g (trace c) ++ (if decide (x.1 = g) then [event] else []).
Proof.
  rewrite try_listener_effect. simpl. rewrite !calls_of_app. simpl.
  destruct (hands_over x.2 event) as [[cb d]|], (raises x.2 event),
    (decide (x.1 = g)); by rewrite ?app_nil_r.
Qed.

Lemma heard_try_listener (event : frame) (x : fn * listener) (c : t) :
  x.1 ≠ User f →
  heard ours c → heard ours (try_listener event x c).1.
Proof.
  intros Hx (others & Hreg & Hothers). rewrite try_listener_effect.
  unfold heard. simpl.
  destruct (fires x.2 event); [|by exists others].
  exists (filter (λ y, y.1 ≠ x.1) others). split.
  - rewrite Hreg, filter_app. f_equal.
    rewrite filter_cons_True by (simpl; congruence). done.
  - apply Forall_forall. intros y [_ Hy]%list_elem_of_filter.
    by apply (proj1 (Forall_forall _ _) Hothers).
Qed.

Lemma heard_forEach (event : frame) (ls : list (fn * listener)) (c : t) :
  Forall (λ x, x.1 ≠ User f) ls →
  heard ours c →
  heard ours (forEach (try_listener event) ls c).1
  ∧ calls_of (User f) (trace (forEach (try_listener event) ls c).1)
    = calls_of (User f) (trace c).
Proof.
  intros Hls. revert c.
  induction Hls as [|x ls Hx _ IH]; intros c Hc; simpl; [done|].
  pose proof (heard_try_listener event x c Hx Hc) as H1.
  pose proof (calls_of_try_listener (User f) event x c) as H2.
  rewrite decide_False, app_nil_r in H2 by done.
  rewrite try_listener_effect in H1, H2 |- *.
  destruct (IH _ H1) as [H3 H4]. split; [exact H3|].
  etransitivity; [exact H4|exact H2].
Qed.

Lemma heard_onmessage (event : frame) (c : t) :
  heard ours c →
  heard ours (onmessage event c).1
  ∧ calls_of (User f) (trace (onmessage event c).1)
    = calls_of (User f) (trace c) ++ [event].
Proof.
  intros Hc. pose proof Hc as (others & Hreg & Hothers).
  unfold onmessage. rewrite Hreg, forEach_app.
  destruct (heard_forEach event others c Hothers Hc) as [H1 H2].
  simpl.
  pose proof (calls_of_try_listener (User f) event ours
                (forEach (try_listener event) others c).1) as H3.
  rewrite decide_True in H3 by done.
  assert (heard ours
            (try_listener event ours
               (forEach (try_listener event) others c).1).1) as H4.
  { rewrite try_listener_effect. exact H1. }
  rewrite try_listener_effect in H3, H4 |- *.
  split; [exact H4|]. etransitivity; [exact H3|]. by rewrite H2.
Qed.

Lemma heard_run (frames : list frame) (c : t) :
  heard ours c →
  heard ours (run c (socket_message <$> frames))
  ∧ calls_of (User f) (trace (run c (socket_message <$> frames)))
    = calls_of (User f) (trace c) ++ frames.
Proof.
  revert c. induction frames as [|event frames IH]; intros c Hc.
  - simpl. by rewrite app_nil_r.
  - destruct (heard_onmessage event c Hc) as [Hnext Hcalls].
    rewrite fmap_cons.
    change (run c (socket_message event :: (socket_message <$> frames)))
      with (run (onmessage event c).1 (socket_message <$> frames)).
    destruct (IH _ Hnext) as [H1 H2]. split; [exact H1|].
    by rewrite H2, Hcalls, <- app_assoc.
Qed.

Lemma unheard_forEach (g : fn) (event : frame) (ls : list (fn * listener))
    (c : t) :
  Forall (λ x, x.1 ≠ g) ls →
  calls_of g (trace (forEach (try_listener event) ls c).1)
  = calls_of g (trace c)
  ∧ ∀ x, x ∈ onMessageListeners (forEach (try_listener event) ls c).1 →
         x ∈ onMessageListeners c.
Proof.
  intros Hls. revert c.
  induction Hls as [|x ls Hx _ IH]; intros c; simpl; [done|].
  pose proof (calls_of_try_listener g event x c) as H1.
  rewrite decide_False, app_nil_r in H1 by done.
  assert (∀ y, y ∈ onMessageListeners (try_listener event x c).1 →
               y ∈ onMessageListeners c) as H2.
  { rewrite try_listener_effect. simpl.
    destruct (fires x.2 event); [|done].
    by intros y [_ Hy]%list_elem_of_filter. }
  rewrite try_listener_effect in H1, H2 |- *.
  destruct (IH (try_listener event x c).1) as [H3 H4].
  rewrite try_listener_effect in H3, H4.
  split.
  - etransitivity; [exact H3|exact H1].
  - intros y Hy. by apply H2, H4.
Qed.

Lemma unheard_run (g : fn) (frames : list frame) (c : t) :
  (∀ l, (g, l) ∉ onMessageListeners c) →
  calls_of g (trace (run c (socket_message <$> frames)))
  = calls_of g (trace c).
Proof.
  revert c. induction frames as [|event frames IH]; intros c Hc; [done|].
  rewrite fmap_cons.
  change (run c (socket_message event :: (socket_message <$> frames)))
    with (run (onmessage event c).1 (socket_message <$> frames)).
  destruct (unheard_forEach g event (onMessageListeners c) c) as [H1 H2].
  { apply Forall_forall. intros [g' l] Hin Heq. simpl in Heq. subst g'.
    by apply (Hc l). }
  rewrite IH; [exact H1|].
  intros l Hin. apply (Hc l). by apply H2.
Qed.

(** A function that the caller adds with [addListener] is called with
    every frame that arrives, in order, whatever it returns or throws and
    whatever the other listeners do; once the caller removes it with
    [removeListener] it is not called any more. *)
Theorem listener_hears_every_frame (c : t) (frames more : list frame) :
  (∀ l, (User f, l) ∉ onMessageListeners c) →
  let c1 := step c (calls_addListener f throws) in
  let c2 := run c1 (socket_message <$> frames) in
  let c3 := step c2 (calls_removeListener (User f)) in
  calls_of (User f) (trace c2) = calls_of (User f) (trace c) ++ frames
  ∧ calls_of (User f) (trace (run c3 (socket_message <$> more)))
    = calls_of (User f) (trace c2).
Proof.
  intros Hnew. cbv zeta. split.
  - destruct (heard_run frames (step c (calls_addListener f throws)))
      as [_ Hcalls]; [|exact Hcalls].
    exists (onMessageListeners c). split; [done|].
    apply Forall_forall. intros [g l] Hin Heq. simpl in Heq. subst g.
    by apply (Hnew l).
  - rewrite unheard_run; [done|].
    intros l. apply removeListener_removes.
Qed.

End UserListener.

Section UserListenerWitness.
Import WSClient.

Lemma listener_hears_every_frame_witness :
  let c1 := step open_client (calls_addListener 3 (λ _, Some (Error "no"))) in
  calls_of (User 3)
    (trace (run c1 (socket_message
                      <$> [Text (VStr "one"); Garbage "two"])))
  = [Text (VStr "one"); Garbage "two"].
Proof.
  refine (proj1 (listener_hears_every_frame 3 (λ _, Some (Error "no"))
                   open_client [Text (VStr "one"); Garbage "two"] [] _)).
  intros l Hin. by apply elem_of_nil in Hin.
Defined.

End UserListenerWitness.

(** * [open] *)

Section Open.
Import WSClient.

(** The promise of [open()].  On an open client it is resolved at once.
    On a client that is not open it stays pending until the socket
    answers: an ['error'] event rejects it with the error, and an ['open']
    event resolves it, unless the [onConnect] callback throws. *)
Theorem open_settles_with_the_socket (c : t) (e : thrown) :
  reachable c →
  let p := length (promises c) in
  let c1 := (open_promise c).2 in
  (open_promise c).1 = p
  ∧ (isOpen c = true →
     promises c1 !! p = Some (Fulfilled (Data VUndefined)))
  ∧ (isOpen c = false →
     promises c1 !! p = Some Pending
     ∧ promises (step c1 (socket_error e)) !! p = Some (Rejected e)
     ∧ ((∀ e', onConnectCallback c ≠ Some (Some e')) →
        promises (step c1 socket_open) !! p
        = Some (Fulfilled (Data VUndefined)))).
Proof.
  intros Hreach. cbv zeta.
  pose proof (reachable_well_formed c Hreach) as Hwf.
  pose proof Hwf as (_ & _ & Hw).
  destruct (new_promise_unclaimed c Hwf) as [Hwf1 Hfree1].
  assert (∀ w, w ∈ opening c →
               waiter_promise w ≠ Some (length (promises c))) as Hother.
  { intros w Hin Heq. specialize (Hw w _ Hin Heq). lia. }
  split; [done|]. split.
  - intros Hopen. unfold open_promise, open. simpl. rewrite Hopen. simpl.
    by rewrite list_lookup_alter_eq, lookup_app_r, Nat.sub_diag.
  - intros Hclosed.
    assert (open_promise c
            = (length (promises c),
               set_opening
                 (opening c ++ [awaiting_open (length (promises c))])
                 (new_promise c).2)) as ->.
    { unfold open_promise, open. simpl. by rewrite Hclosed. }
    cbn [snd]. set (c1 := set_opening _ _).
    assert (promises c1 !! length (promises c) = Some Pending) as Hp
      by apply Hfree1.
    split; [exact Hp|]. split.
    + simpl.
      assert (promises (set_opening [] (handleError e c1)) = promises c1
              ∧ opening (handleError e c1)
                = opening c ++ [awaiting_open (length (promises c))])
        as (H1 & H2)
        by (unfold handleError; simpl; by destruct (_shouldReconnect c)).
      rewrite H2, foldl_app.
      destruct (pending_foldl_abandon e (opening c)
                  (set_opening [] (handleError e c1))
                  (length (promises c))) as [H3 _].
      { by rewrite H1. }
      { intros w q Hin Hq ->. by apply (Hother w). }
      apply (kept_foldl (λ c h, errorHandler e h c));
        [intros c' h; apply kept_errorHandler| |done].
      simpl. by rewrite list_lookup_alter_eq, H3.
    + intros Hcb. simpl. rewrite foldl_app. simpl.
      set (c' := foldl (λ c w, onOpen w c) _ (opening c)).
      assert (unclaimed (length (promises c)) c') as [Hp' _].
      { apply unclaimed_foldl_onOpen; [|exact Hfree1].
        apply Forall_forall. intros w Hin. by apply Hother. }
      assert (onConnectCallback c' = onConnectCallback c) as Hsame
        by (unfold c'; by rewrite onConnectCallback_foldl_onOpen).
      unfold onOpen. cbv zeta.
      change (onConnectCallback (set_isOpen true c'))
        with (onConnectCallback c').
      rewrite Hsame.
      destruct (onConnectCallback c) as [[e'|]|] eqn:Hcallback.
      * by destruct (Hcb e').
      * simpl. by rewrite list_lookup_alter_eq, Hp'.
      * simpl. by rewrite list_lookup_alter_eq, Hp'.
Qed.

Lemma open_settles_with_the_socket_witness :
  let c := create true sample_random in
  promises (step (open_promise c).2 socket_open) !! 0
  = Some (Fulfilled (Data VUndefined)).
Proof.
  refine (proj2 (proj2 (proj2 (proj2
            (open_settles_with_the_socket (create true sample_random)
               (Error "unused") (reachable_create true sample_random)))
            eq_refl)) _).
  intros e'. discriminate.
Defined.

End Open.

(** * The pledge behind [timeout] *)

Section PledgeBehindTimeout.
Import Pledge.

Lemma pledge_run (s : racing) (evs : list event) :
  promise (pledge (run s evs))
  = match promise (pledge s) with
    | Pending => first_call evs
    | outcome => outcome
    end.
Proof.
  revert s. induction evs as [|ev evs IH]; intros s; simpl.
  - by destruct (promise (pledge s)).
  - rewrite IH. destruct ev; simpl; by destruct (promise (pledge s)).
Qed.

(** [timeout] does not settle the pledge.  The pledge keeps the outcome of
    the first [resolve] or [reject], before or after the time has elapsed:
    a pledge whose [timeout] has failed with "Request Timeout" can still
    be resolved, and [get()] then yields the value. *)
Theorem timeout_leaves_the_pledge (time : number) (p : t)
    (evs : list event) :
  get (pledge (run (timeout time p) evs))
  = match promise p with
    | Pending => first_call evs
    | outcome => outcome
    end
  ∧ ∀ data later,
      promise p = Pending →
      raced (run (timeout time p) (elapses :: resolves data :: later))
      = Rejected (Error "Request Timeout")
      ∧ get (pledge (run (timeout time p) (elapses :: resolves data :: later)))
        = Fulfilled data.
Proof.
  split.
  - unfold get. by rewrite pledge_run.
  - intros data later Hp. split.
    + change (run (timeout time p) (elapses :: resolves data :: later))
        with (run (step (timeout time p) elapses) (resolves data :: later)).
      rewrite raced_stable; simpl; by rewrite Hp.
    + unfold get. rewrite pledge_run. simpl. by rewrite Hp.
Qed.

End PledgeBehindTimeout.

(** * A call parked on a socket that is replaced *)

Section Orphaned.
Import WSClient.

Variable p : nat.

Lemma orphaned_resume (w : waiter) (c : t) :
  waiter_promise w ≠ Some p → orphaned p c → orphaned p (resume w c).
Proof.
  intros Hw (Hfree & Hws & Hhs). split; [by apply unclaimed_resume|].
  destruct w as [|q|method data q|method data callback throws q];
    simpl in *; split; try done.
  intros h [Hin|Hin%list_elem_of_singleton]%elem_of_app; [by apply Hhs|].
  subst h. simpl. congruence.
Qed.

Lemma orphaned_onOpen (w : waiter) (c : t) :
  waiter_promise w ≠ Some p → orphaned p c → orphaned p (onOpen w c).
Proof.
  intros Hw Hc. unfold onOpen. cbv zeta.
  change (onConnectCallback (set_isOpen true c)) with (onConnectCallback c).
  destruct (onConnectCallback c) as [[e|]|].
  - destruct Hc as (Hfree & Hws & Hhs). repeat split; simpl; try apply Hfree;
      try done.
    intros w' [Hin|Hin%list_elem_of_singleton]%elem_of_app; [by apply Hws|].
    by subst w'.
  - by apply orphaned_resume.
  - by apply orphaned_resume.
Qed.

Lemma orphaned_foldl_onOpen (ws : list waiter) (c : t) :
  Forall (λ w, waiter_promise w ≠ Some p) ws →
  orphaned p c → orphaned p (foldl (λ c w, onOpen w c) c ws).
Proof.
  intros Hws. revert c.
  induction Hws as [|w ws Hw _ IH]; intros c Hc; simpl; [done|].
  by apply IH, orphaned_onOpen.
Qed.

Lemma orphaned_abandon (e : thrown) (w : waiter) (c : t) :
  waiter_promise w ≠ Some p → orphaned p c → orphaned p (abandon e w c).
Proof.
  intros Hw ([Hp Hfree] & Hws & Hhs).
  destruct w as [|q|method data q|method data callback throws q];
    simpl in *; repeat split; simpl; try done;
    rewrite list_lookup_alter_ne; try done; congruence.
Qed.

Lemma orphaned_foldl_abandon (e : thrown) (ws : list waiter) (c : t) :
  Forall (λ w, waiter_promise w ≠ Some p) ws →
  orphaned p c → orphaned p (foldl (λ c w, abandon e w c) c ws).
Proof.
  intros Hws. revert c.
  induction Hws as [|w ws Hw _ IH]; intros c Hc; simpl; [done|].
  by apply IH, orphaned_abandon.
Qed.

Lemma orphaned_errorHandler (e : thrown) (h : nat * fn) (c : t) :
  h.1 ≠ p → orphaned p c → orphaned p (errorHandler e h c).
Proof.
  intros Hh ([Hp Hfree] & Hws & Hhs). repeat split; simpl; try done.
  - by rewrite list_lookup_alter_ne.
  - intros x [_ Hin]%list_elem_of_filter. by apply Hfree.
Qed.

Lemma orphaned_foldl_errorHandler (e : thrown) (hs : list (nat * fn))
    (c : t) :
  Forall (λ h, h.1 ≠ p) hs →
  orphaned p c → orphaned p (foldl (λ c h, errorHandler e h c) c hs).
Proof.
  intros Hhs. revert c.
  induction Hhs as [|h hs Hh _ IH]; intros c Hc; simpl; [done|].
  by apply IH, orphaned_errorHandler.
Qed.

Lemma orphaned_try_listener (event : frame) (x : fn * listener) (c : t) :
  promise_of x.2 ≠ Some p →
  orphaned p c → orphaned p (try_listener event x c).1.
Proof.
  intros Hx ([Hp Hfree] & Hws & Hhs). rewrite try_listener_effect.
  destruct (fires x.2 event) as [[q d]|] eqn:Hfires.
  - apply fires_promise_of in Hfires.
    repeat split; simpl; try done.
    + rewrite list_lookup_alter_ne; [done|congruence].
    + intros y [_ Hin]%list_elem_of_filter. by apply Hfree.
  - by repeat split.
Qed.

Lemma orphaned_forEach (event : frame) (ls : list (fn * listener)) (c : t) :
  Forall (λ x, promise_of x.2 ≠ Some p) ls →
  orphaned p c → orphaned p (forEach (try_listener event) ls c).1.
Proof.
  intros Hls. revert c.
  induction Hls as [|x ls Hx _ IH]; intros c Hc; simpl; [done|].
  pose proof (orphaned_try_listener event x c Hx Hc) as H1.
  rewrite try_listener_effect in H1 |- *. by apply IH.
Qed.

Lemma orphaned_open (w : waiter) (c : t) :
  waiter_promise w ≠ Some p → orphaned p c → orphaned p (open w c).
Proof.
  intros Hw Hc. unfold open. destruct (isOpen c).
  - by apply orphaned_resume.
  - destruct Hc as (Hfree & Hws & Hhs). repeat split; simpl; try apply Hfree;
      try done.
    intros w' [Hin|Hin%list_elem_of_singleton]%elem_of_app; [by apply Hws|].
    by subst w'.
Qed.

Lemma orphaned_connect (c : t) : orphaned p c → orphaned p (connect c).
Proof.
  intros Hc. unfold connect. destruct (_isConnecting c); [done|].
  cbv zeta. apply orphaned_open; [done|].
  destruct Hc as (Hfree & Hws & Hhs). repeat split; simpl; try apply Hfree.
  - by intros w Hin%elem_of_nil.
  - by intros h Hin%elem_of_nil.
Qed.

Lemma orphaned_new_promise (w : nat → waiter) (c : t) :
  (∀ q r, waiter_promise (w q) = Some r → r = q) →
  orphaned p c →
  orphaned p (open (w (length (promises c))) (new_promise c).2).
Proof.
  intros Hw Hc. pose proof Hc as ([Hp Hfree] & Hws & Hhs).
  apply orphaned_open.
  - intros Heq. apply Hw in Heq. apply lookup_lt_Some in Hp. lia.
  - repeat split; simpl; try done. by apply lookup_app_l_Some.
Qed.

Lemma orphaned_step (c : t) (ev : event) :
  orphaned p c → orphaned p (step c ev).
Proof.
  intros Hc. pose proof Hc as ([Hp Hfree] & Hws & Hhs).
  destruct ev; simpl.
  - apply orphaned_foldl_onOpen; [by apply Forall_forall|].
    repeat split; simpl; try done. by intros w Hin%elem_of_nil.
  - assert (orphaned p (set_opening [] (handleError e c))
            ∧ opening (handleError e c) = opening c
            ∧ errorHandlers (set_opening [] (handleError e c))
              = errorHandlers c) as (H0 & H1 & H2).
    { unfold handleError. simpl. destruct (_shouldReconnect c);
        repeat split; simpl; try done; by intros w Hin%elem_of_nil. }
    rewrite H1.
    pose proof (orphaned_foldl_abandon e (opening c) _
                  (proj2 (Forall_forall _ _) Hws) H0) as H3.
    apply orphaned_foldl_errorHandler; [|done].
    apply Forall_forall. intros h Hin. by apply (proj2 (proj2 H3)).
  - unfold onclose. simpl. by destruct (_shouldReconnect c).
  - apply orphaned_forEach; [|done]. by apply Forall_forall.
  - destruct (timers c) as [|n]; [done|]. by apply orphaned_connect.
  - by apply orphaned_connect.
  - by apply (orphaned_new_promise awaiting_open); [intros q r [= <-]|].
  - by apply (orphaned_new_promise (awaiting_send method data));
      [intros q r [= <-]|].
  - by apply (orphaned_new_promise
                (awaiting_stream method data callback throws));
      [intros q r [= <-]|].
  - done.
  - repeat split; simpl; try done.
    intros x [Hin|Hin%list_elem_of_singleton]%elem_of_app;
      [by apply Hfree|]. by subst x.
  - repeat split; simpl; try done.
    intros x [_ Hin]%list_elem_of_filter. by apply Hfree.
  - done.
Qed.

Lemma orphaned_run (c : t) (evs : list event) :
  orphaned p c → orphaned p (run c evs).
Proof.
  revert c. induction evs as [|ev evs IH]; intros c Hc; simpl; [done|].
  by apply IH, orphaned_step.
Qed.

End Orphaned.

Section ParkedSend.
Import WSClient.

(** C4.  The claim fails for a call of [send] made while the client waits
    to reconnect.  The call parks its ['open'] listener on the socket that
    has closed; the timer then runs [connect()], which replaces the socket;
    the listener is never called, so the request is never written, no
    listener is ever registered for it and the promise of [send] stays
    pending whatever happens afterwards, the opening of the new socket
    included. *)
Theorem send_parked_on_replaced_socket_is_lost (c : t) (method : string)
    (data : value) (evs : list event) :
  reachable c →
  isOpen c = false → _isConnecting c = false → timers c ≠ 0 →
  let p := length (promises c) in
  let c1 := (send method data c).2 in
  let c2 := step c1 timer_fires in
  (send method data c).1 = p
  ∧ wire c2 = wire c
  ∧ sockets c2 = S (sockets c)
  ∧ opening c2 = [awaiting_connect]
  ∧ promises (run c2 evs) !! p = Some Pending
  ∧ ∀ x, x ∈ onMessageListeners (run c2 evs) → promise_of x.2 ≠ Some p.
Proof.
  intros Hreach Hclosed Hidle Htimer. cbv zeta.
  pose proof (reachable_well_formed c Hreach) as (_ & Hl & _).
  assert (send method data c
          = (length (promises c),
             set_opening
               (opening c ++ [awaiting_send method data (length (promises c))])
               (new_promise c).2)) as ->.
  { unfold send, open. simpl. by rewrite Hclosed. }
  cbn [fst snd]. set (c1 := set_opening _ _).
  destruct (timers c) as [|n] eqn:Hn; [done|].
  assert (step c1 timer_fires
          = set_opening [awaiting_connect]
              (set_isOpen false
                 (set_opening []
                    (set_errorHandlers []
                       (set_sockets (S (sockets c))
                          (set_shouldReconnect (reconnect c)
                             (set_isConnecting true (set_timers n c1))))))))
    as ->.
  { simpl. rewrite Hn. unfold connect. simpl. rewrite Hidle. done. }
  set (c2 := set_opening [awaiting_connect] _).
  assert (orphaned (length (promises c)) c2) as Horphan.
  { repeat split; simpl.
    - by rewrite lookup_app_r, Nat.sub_diag.
    - intros x Hin Hx. specialize (Hl x _ Hin Hx). lia.
    - by intros w ->%list_elem_of_singleton.
    - by intros h Hin%elem_of_nil. }
  do 4 (split; [done|]).
  destruct (orphaned_run _ c2 evs Horphan) as ([Hp Hfree] & _ & _).
  by split.
Qed.

Lemma send_parked_on_replaced_socket_is_lost_witness :
  let c := run (create true sample_random) [socket_open; socket_close] in
  let c2 := step (send "echo" (VStr "hi") c).2 timer_fires in
  wire c2 = []
  ∧ sockets c2 = 2
  ∧ promises
      (run c2
         [socket_open;
          socket_message
            (Text (VObj [("id", VStr "aaa"); ("data", VStr "hi")]))]) !! 0
    = Some Pending.
Proof.
  destruct (send_parked_on_replaced_socket_is_lost
              (run (create true sample_random) [socket_open; socket_close])
              "echo" (VStr "hi")
              [socket_open;
               socket_message
                 (Text (VObj [("id", VStr "aaa"); ("data", VStr "hi")]))]
              (reachable_run _ [socket_open; socket_close]
                 (reachable_create true sample_random))
              eq_refl eq_refl ltac:(discriminate))
    as (_ & Hwire & Hsockets & _ & Hpending & _).
  split; [exact Hwire|]. split; [exact Hsockets|exact Hpending].
Defined.

End ParkedSend.

(** * What the client sees of a handler *)

Section HandlerAtClient.
Import WSClient.

(** With a string for the id, [respond] writes one frame for each call. *)
Lemma exec_respond_id (id : string) (r : WSServer.run) :
  WSServer.exec (WSServer.respond (VStr id)) r
  = (data_reply id <$> (replied r).1, (replied r).2).
Proof.
  induction r as [|e|data next IH]; simpl; try done.
  rewrite (IH None). destruct (replied (next None)) as [ds completion].
  simpl. unfold data_reply. by destruct (serialize data).
Qed.

Lemma data_reply_members (id : string) (data : value) :
  ∃ doc,
    data_reply id data = Text doc
    ∧ get "id" doc = VStr id
    ∧ get "data" doc = wire_value data.
Proof.
  unfold data_reply, wire_value. eexists. split; [done|].
  by destruct (serialize data).
Qed.

(** The first frame with the id of the request decides, and the frames
    that follow change nothing. *)
Lemma request_heard (srv : WSServer.t) (method : string) (data : value)
    (c : t) (frames : list frame) (completion : option thrown) :
  reachable c →
  isOpen c = true →
  WSServer.handleMessage srv
    (request_text (random c (draws c)) method data)
  = (frames, completion) →
  (Network.request srv method data c).1 = length (promises c)
  ∧ (frames = [] →
     promises (Network.request srv method data c).2 !! length (promises c)
     = Some Pending)
  ∧ (∀ reply rest doc,
       frames = reply :: rest →
       JSON_parse reply = inl doc →
       get "id" doc = VStr (random c (draws c)) →
       promises (Network.request srv method data c).2 !! length (promises c)
       = Some (Fulfilled (Data (get "data" doc)))).
Proof.
  intros Hreach Hopen Hreply.
  destruct (send_on_open_client method data c
              (reachable_well_formed c Hreach) Hopen) as (Hp & Hwire & Hin).
  unfold Network.request.
  destruct (send method data c) as [p c1] eqn:Hsend. simpl in *. subst p.
  split; [done|].
  rewrite Hwire, drop_app_length. simpl. unfold Network.deliver.
  rewrite Hreply. cbn [fst]. split.
  - intros ->. apply Hin.
  - intros reply rest doc -> Hparse Hid. rewrite fmap_cons.
    change (run c1 (socket_message reply :: (socket_message <$> rest)))
      with (run (onmessage reply c1).1 (socket_message <$> rest)).
    pose proof (in_flight_onmessage_fires _ _ _ reply (get "data" doc) c1
                  (fires_reply _ _ reply doc Hparse Hid) Hin) as [Ha _].
    by apply (kept_run (onmessage reply c1).1).
Qed.

(** What the promise of [send] shows of a registered handler, whatever
    the handler does.  The server writes one frame with the id for each
    call of [respond], and "Method handler error" after them when the
    handler throws.  The promise resolves with the data of the first of
    these frames: the first reply, as JSON carries it, when the handler
    has replied, and [undefined] when it throws before it has replied;
    it stays pending when the handler returns without a reply.  It is
    never rejected: a handler error that comes after a reply is not seen
    at all. *)
Theorem handler_outcome_reaches_client (srv : WSServer.t) (method : string)
    (data : value) (h : WSServer.handler) (c : t) :
  reachable c →
  isOpen c = true →
  method ≠ "" →
  WSServer.methodList srv !! method = Some h →
  let id := random c (draws c) in
  let outcome := replied (h (wire_value data)) in
  WSServer.handleMessage srv (request_text id method data)
  = ((data_reply id <$> outcome.1)
     ++ match outcome.2 with
        | Some _ => [error_reply "Method handler error" (VStr id)]
        | None => []
        end,
     None)
  ∧ promises (Network.request srv method data c).2
      !! (Network.request srv method data c).1
    = Some match outcome.1, outcome.2 with
           | reply :: _, _ => Fulfilled (Data (wire_value reply))
           | [], Some _ => Fulfilled (Data VUndefined)
           | [], None => Pending
           end.
Proof.
  intros Hreach Hopen Hne Hown. cbv zeta.
  destruct (request_text_members (random c (draws c)) method data)
    as (req & Hreq & _ & Hid & Hmethod & Hpayload).
  assert (WSServer.handleMessage srv
            (request_text (random c (draws c)) method data)
          = ((data_reply (random c (draws c))
                <$> (replied (h (wire_value data))).1)
             ++ match (replied (h (wire_value data))).2 with
                | Some _ =>
                    [error_reply "Method handler error"
                       (VStr (random c (draws c)))]
                | None => []
                end,
             None)) as Hreply.
  { rewrite Hreq.
    rewrite (handleMessage_named srv (Text req) req method) by done.
    unfold WSServer.lookup. rewrite Hown. cbv beta iota.
    rewrite Hid, Hpayload, exec_respond_id.
    destruct (replied (h (wire_value data))) as [ds [e|]]; cbn [fst snd].
    - by rewrite send_error_envelope.
    - by rewrite app_nil_r. }
  split; [exact Hreply|].
  destruct (request_heard srv method data c _ None Hreach Hopen Hreply)
    as (-> & Hnone & Hfirst).
  destruct (replied (h (wire_value data))) as [[|reply ds] [e|]];
    cbn [fst snd] in *.
  - exact (Hfirst _ [] _ eq_refl eq_refl eq_refl).
  - by apply Hnone.
  - destruct (data_reply_members (random c (draws c)) reply)
      as (doc & Hdoc & Hdocid & Hdocdata).
    rewrite <- Hdocdata.
    eapply (Hfirst (data_reply (random c (draws c)) reply) _ doc);
      [reflexivity| |done].
    by rewrite Hdoc.
  - destruct (data_reply_members (random c (draws c)) reply)
      as (doc & Hdoc & Hdocid & Hdocdata).
    rewrite <- Hdocdata.
    eapply (Hfirst (data_reply (random c (draws c)) reply) _ doc);
      [reflexivity| |done].
    by rewrite Hdoc.
Qed.

Lemma handler_outcome_reaches_client_witness :
  let replies_then_throws : WSServer.handler :=
    λ _, WSServer.Respond (VStr "a") (λ _, WSServer.Throw (Error "late")) in
  promises (Network.request failing_server "fail" (VStr "hi") open_client).2
    !! 0
  = Some (Fulfilled (Data VUndefined))
  ∧ promises
      (Network.request
         {| WSServer.methodList := <["work" := replies_then_throws]> ∅ |}
         "work" (VStr "hi") open_client).2 !! 0
    = Some (Fulfilled (Data (VStr "a"))).
Proof.
  split.
  - refine (proj2 (handler_outcome_reaches_client failing_server "fail"
                     (VStr "hi") (λ _, WSServer.Throw (Error "fail"))
                     open_client
                     (reachable_run _ [socket_open]
                        (reachable_create false sample_random))
                     eq_refl _ eq_refl)).
    discriminate.
  - refine (proj2 (handler_outcome_reaches_client
                     {| WSServer.methodList :=
                          <["work" := λ _, WSServer.Respond (VStr "a")
                                             (λ _, WSServer.Throw
                                                     (Error "late"))]> ∅ |}
                     "work" (VStr "hi")
                     (λ _, WSServer.Respond (VStr "a")
                             (λ _, WSServer.Throw (Error "late")))
                     open_client
                     (reachable_run _ [socket_open]
                        (reachable_create false sample_random))
                     eq_refl _ eq_refl)).
    discriminate.
Defined.

End HandlerAtClient.
